(** * torch/quantization/_numeric_suite.py

    A shallow embedding of the numeric suite (name matcher, weight and
    activation comparators, stat loggers, the Shadow wrapper and the two
    graph walkers) together with the properties its specification states.

    Conventions of the embedding.
    - A Python [str] is a [string]; [None] results are [option].
    - A Python [dict] whose iteration order is observable (state dicts, the
      result dictionaries, [_modules]) is an insertion-ordered association
      list ([odict]); the [stats] record of a logger, only ever accessed by
      key, is a [gmap].
    - A raised exception ([KeyError], a failing collaborator) is [None] in
      the [option] monad.
    - Module objects that are mutated in place live in an explicit store
      indexed by addresses (object identities). *)

From Stdlib Require Import Ascii.
From stdpp Require Import gmap strings list fin_maps sorting.

Open Scope string_scope.
Open Scope list_scope.
Set Warnings "-register-all".

(* ================================================================= *)
(** * The program *)

(** ** Python strings and lists *)

(** [s.split(".")]: the segments of [s] between dots.  The result is never
    empty; [split_dot "" = [""]]. *)
Fixpoint split_dot (s : string) : list string :=
  match s with
  | EmptyString => [EmptyString]
  | String c r =>
      if Ascii.eqb c "."%char then EmptyString :: split_dot r
      else match split_dot r with
           | [] => [String c EmptyString]
           | seg :: segs => String c seg :: segs
           end
  end.

(** [l[0:-k]] for a positive literal [k]: all but the last [k] elements,
    the empty list when [l] has at most [k] elements. *)
Definition slice_to_neg {A} (k : nat) (l : list A) : list A :=
  take (length l - k) l.

(** ["".join(l)]. *)
Definition join_empty (l : list string) : string :=
  foldr String.append "" l.

(** [".".join(l)]. *)
Fixpoint join_dot (l : list string) : string :=
  match l with
  | [] => ""
  | [s] => s
  | s :: r => s +:+ "." +:+ join_dot r
  end.

(** [l[-1]]; [None] stands for [IndexError]. *)
Definition last_item {A} (l : list A) : option A := last l.

(** [a >= b] on strings: the order of [sorted(..., reverse=True)]. *)
Definition string_ge (a b : string) : Prop := String.leb b a = true.

Global Instance string_ge_dec a b : Decision (string_ge a b).
Proof. unfold string_ge. apply _. Defined.

(** [sorted(d, reverse=True)] on strings: descending code-point order. *)
Definition sorted_reverse (keys : list string) : list string :=
  merge_sort string_ge keys.

(* ================================================================= *)
(** ** Insertion-ordered dictionaries *)

Definition odict (V : Type) : Type := list (string * V).

Definition dict_keys {V} (d : odict V) : list string := d.*1.

(** [d[k]]; [None] stands for [KeyError]. *)
Fixpoint getitem {V} (k : string) (d : odict V) : option V :=
  match d with
  | [] => None
  | (k', v) :: r => if decide (k' = k) then Some v else getitem k r
  end.

(** [d[k] = v]: an existing key keeps its position, a new key goes last. *)
Fixpoint setitem {V} (k : string) (v : V) (d : odict V) : odict V :=
  match d with
  | [] => [(k, v)]
  | (k', v') :: r =>
      if decide (k' = k) then (k, v) :: r else (k', v') :: setitem k v r
  end.

(* ================================================================= *)
(** ** Name matcher: [_find_match] *)

(** The body of [for s2 in str_list: ...]; falling off the loop is the
    implicit [return None]. *)
Fixpoint _find_match_loop (match_string : string) (str_list : list string)
  : option string :=
  match str_list with
  | [] => None
  | s2 :: rest =>
      let pattern1 := join_empty (slice_to_neg 1 (split_dot s2)) in
      let pattern2 := join_empty (slice_to_neg 2 (split_dot s2)) in
      if decide (match_string = pattern1) then Some s2
      else if decide (match_string = pattern2) then Some s2
      else _find_match_loop match_string rest
  end.

Definition _find_match (str_list : list string) (key_str postfix : string)
  : option string :=
  let split_str := split_dot key_str in
  if decide (last_item split_str = Some postfix) then
    let match_string := join_empty (slice_to_neg 1 (split_dot key_str)) in
    _find_match_loop match_string str_list
  else None.

(** The matcher as the specification words it: the stem and the stripped
    candidate names are compared as dotted names. *)
Definition strip_segments (k : nat) (s : string) : string :=
  join_dot (slice_to_neg k (split_dot s)).

Definition spec_find_match (candidate_names : list string)
    (target_name expected_suffix : string) : option string :=
  if decide (last_item (split_dot target_name) = Some expected_suffix) then
    let stem := strip_segments 1 target_name in
    snd <$> list_find
      (λ c, strip_segments 1 c = stem ∨ strip_segments 2 c = stem)
      candidate_names
  else None.

(** A candidate qualifies for a target when its segments without the last
    one, or without the last two, concatenate to the same string as the
    target's segments without the last. *)
Definition qualifies (key_str s2 : string) : Prop :=
  join_empty (slice_to_neg 1 (split_dot key_str))
    = join_empty (slice_to_neg 1 (split_dot s2))
  ∨ join_empty (slice_to_neg 1 (split_dot key_str))
    = join_empty (slice_to_neg 2 (split_dot s2)).

(* ================================================================= *)
(** ** Loops and exceptions *)

(** [for x in items: s = body(s, x)], where the body may raise. *)
Fixpoint for_each {S A} (body : S → A → option S) (items : list A) (s : S)
  : option S :=
  match items with
  | [] => Some s
  | x :: rest => s' ← body s x; for_each body rest s'
  end.

(* ================================================================= *)
(** ** Weight comparator: [compare_weights] *)

Section Weights.
Context {Tensor : Type}.

(** One iteration of [for key in quantized_dict].  The nested assignment
    [weight_dict[key]["float"] = v] evaluates [v], reads the entry
    [weight_dict[key]] and stores into it. *)
Definition compare_weights_body (float_dict quantized_dict : odict Tensor)
    (weight_dict : odict (odict Tensor)) (key : string)
  : option (odict (odict Tensor)) :=
  match _find_match (dict_keys float_dict) key "weight" with
  | None => Some weight_dict
  | Some match_key =>
      let weight_dict := setitem key [] weight_dict in
      fv ← getitem match_key float_dict;
      entry ← getitem key weight_dict;
      let weight_dict := setitem key (setitem "float" fv entry) weight_dict in
      qv ← getitem key quantized_dict;
      entry ← getitem key weight_dict;
      Some (setitem key (setitem "quantized" qv entry) weight_dict)
  end.

Definition compare_weights (float_dict quantized_dict : odict Tensor)
  : option (odict (odict Tensor)) :=
  for_each (compare_weights_body float_dict quantized_dict)
    (dict_keys quantized_dict) [].

End Weights.

(* ================================================================= *)
(** ** Tensors and stat records *)

(** Modelled from the spec: the tensor library ([torch.cat],
    [Tensor.detach]) is an external collaborator.  A tensor is represented
    by the sequence of its slices along dimension 0, the slices themselves
    being opaque.  [torch.cat((a, b))] raises when the library rejects the
    pair, as it does for slices of different shapes (section 7), and
    otherwise returns the slices of [a] followed by those of [b]; which
    pairs the library accepts is its own matter, [compatible].  [detach]
    returns the same values without autograd history. *)
Abbreviation tensor Slice := (list Slice) (only parsing).

Definition torch_cat {Slice}
    (compatible : tensor Slice → tensor Slice → bool)
    (a b : tensor Slice) : option (tensor Slice) :=
  if compatible a b then Some (a ++ b) else None.

Definition detach {Slice} (x : tensor Slice) : tensor Slice := x.

(** The slices of a whole sequence of tensors, in order. *)
Definition torch_cat_all {Slice} (ts : list (tensor Slice)) : tensor Slice :=
  concat ts.

(** The [stats] dictionary of a logger: slot name to accumulated value,
    [None] while nothing was recorded. *)
Abbreviation stats_record T := (gmap string (option T)).

(* ================================================================= *)
(** ** Stat loggers *)

Section Loggers.
Context {Slice : Type}.
Context (compatible : tensor Slice → tensor Slice → bool).
Abbreviation T := (tensor Slice).

(** [Logger.__init__]. *)
Definition Logger_init : stats_record T := ∅.

(** [Logger.forward]: [pass]. *)
Definition Logger_forward (stats : stats_record T) (x : T)
  : option (stats_record T) := Some stats.

(** [ShadowLogger.__init__]. *)
Definition ShadowLogger_init : stats_record T :=
  <["quantized" := None]> (<["float" := None]> Logger_init).

(** [ShadowLogger.forward(x, y)]; the result is the logger's new [stats]. *)
Definition ShadowLogger_forward (stats : stats_record T) (x y : T)
  : option (stats_record T) :=
  q ← stats !! "quantized";
  stats ← match q with
          | None => Some (<["quantized" := Some (detach x)]> stats)
          | Some acc =>
              v ← torch_cat compatible acc (detach x);
              Some (<["quantized" := Some v]> stats)
          end;
  f ← stats !! "float";
  match f with
  | None => Some (<["float" := Some (detach y)]> stats)
  | Some acc =>
      v ← torch_cat compatible acc (detach y);
      Some (<["float" := Some v]> stats)
  end.

(** [OutputLogger.__init__]. *)
Definition OutputLogger_init : stats_record T :=
  <["tensor_val" := None]> Logger_init.

(** [OutputLogger.forward(x)]: the returned value and the new [stats]. *)
Definition OutputLogger_forward (stats : stats_record T) (x : T)
  : option (T * stats_record T) :=
  v ← stats !! "tensor_val";
  stats ← match v with
          | None => Some (<["tensor_val" := Some x]> stats)
          | Some acc =>
              v ← torch_cat compatible acc x;
              Some (<["tensor_val" := Some v]> stats)
          end;
  Some (x, stats).

(** A sequence of calls on one [OutputLogger] instance. *)
Definition OutputLogger_run (stats : stats_record T) (xs : list T)
  : option (stats_record T) :=
  for_each (λ st x, snd <$> OutputLogger_forward st x) xs stats.

(** A sequence of calls on one [ShadowLogger] instance. *)
Definition ShadowLogger_run (stats : stats_record T) (xys : list (T * T))
  : option (stats_record T) :=
  for_each (λ st xy, ShadowLogger_forward st xy.1 xy.2) xys stats.

End Loggers.

(* ================================================================= *)
(** ** The Shadow wrapper *)

Section Shadow.
(** Tensors and scalars are opaque here.  A wrapped module is known only
    through its call contract: the plain call and the operator variants of
    a functional module, each of which may raise.  [dequantize] is the
    tensor method [x.dequantize()]. *)
Context {T Scalar : Type}.
Context (dequantize : T → option T).

Record callable : Type := Callable {
  call_forward : T → option T;
  call_add : T → T → option T;
  call_add_scalar : T → Scalar → option T;
  call_mul : T → T → option T;
  call_mul_scalar : T → Scalar → option T;
  call_cat : list T → Z → option T;
  call_add_relu : T → T → option T
}.

(** A logger class as [Shadow] uses it: [Logger()] builds an instance and
    [logger(output, shadow_output)] updates it or raises. *)
Record logger_impl : Type := LoggerImpl {
  logger_state : Type;
  logger_new : logger_state;
  logger_call : logger_state → T → T → option logger_state
}.

Record Shadow (Logger : logger_impl) : Type := MkShadow {
  orig_module : callable;
  shadow_module : callable;
  logger : logger_state Logger
}.
Arguments MkShadow {Logger}.
Arguments orig_module {Logger}.
Arguments shadow_module {Logger}.
Arguments logger {Logger}.

(** [Shadow.__init__(q_module, float_module, Logger)]. *)
Definition Shadow_init (q_module float_module : callable)
    (Logger : logger_impl) : Shadow Logger :=
  MkShadow q_module float_module (logger_new Logger).

Section Methods.
Context {Logger : logger_impl}.

(** [self.logger(output, shadow_output); return output]. *)
Definition log_and_return (self : Shadow Logger) (output shadow_output : T)
  : option (T * Shadow Logger) :=
  lg ← logger_call Logger (logger self) output shadow_output;
  Some (output, MkShadow (orig_module self) (shadow_module self) lg).

Definition Shadow_forward (self : Shadow Logger) (x : T)
  : option (T * Shadow Logger) :=
  output ← call_forward (orig_module self) x;
  x ← dequantize x;
  shadow_output ← call_forward (shadow_module self) x;
  log_and_return self output shadow_output.

Definition Shadow_add (self : Shadow Logger) (x y : T)
  : option (T * Shadow Logger) :=
  output ← call_add (orig_module self) x y;
  x ← dequantize x;
  y ← dequantize y;
  shadow_output ← call_add (shadow_module self) x y;
  log_and_return self output shadow_output.

Definition Shadow_add_scalar (self : Shadow Logger) (x : T) (y : Scalar)
  : option (T * Shadow Logger) :=
  output ← call_add_scalar (orig_module self) x y;
  x ← dequantize x;
  shadow_output ← call_add_scalar (shadow_module self) x y;
  log_and_return self output shadow_output.

Definition Shadow_mul (self : Shadow Logger) (x y : T)
  : option (T * Shadow Logger) :=
  output ← call_mul (orig_module self) x y;
  x ← dequantize x;
  y ← dequantize y;
  shadow_output ← call_mul (shadow_module self) x y;
  log_and_return self output shadow_output.

Definition Shadow_mul_scalar (self : Shadow Logger) (x : T) (y : Scalar)
  : option (T * Shadow Logger) :=
  output ← call_mul_scalar (orig_module self) x y;
  x ← dequantize x;
  shadow_output ← call_mul_scalar (shadow_module self) x y;
  log_and_return self output shadow_output.

(** [x = [y.dequantize() for y in x]]. *)
Definition dequantize_all (x : list T) : option (list T) := mapM dequantize x.

Definition Shadow_cat (self : Shadow Logger) (x : list T) (dim : Z)
  : option (T * Shadow Logger) :=
  output ← call_cat (orig_module self) x dim;
  x ← dequantize_all x;
  shadow_output ← call_cat (shadow_module self) x dim;
  log_and_return self output shadow_output.

Definition Shadow_add_relu (self : Shadow Logger) (x y : T)
  : option (T * Shadow Logger) :=
  output ← call_add_relu (orig_module self) x y;
  x ← dequantize x;
  y ← dequantize y;
  shadow_output ← call_add_relu (shadow_module self) x y;
  log_and_return self output shadow_output.

(** An invocation: the operator variant with its operands. *)
Inductive invocation : Type :=
  | op_forward (x : T)
  | op_add (x y : T)
  | op_add_scalar (x : T) (y : Scalar)
  | op_mul (x y : T)
  | op_mul_scalar (x : T) (y : Scalar)
  | op_cat (x : list T) (dim : Z)
  | op_add_relu (x y : T).

(** The invocation sent to a Shadow wrapper. *)
Definition Shadow_invoke (self : Shadow Logger) (i : invocation)
  : option (T * Shadow Logger) :=
  match i with
  | op_forward x => Shadow_forward self x
  | op_add x y => Shadow_add self x y
  | op_add_scalar x y => Shadow_add_scalar self x y
  | op_mul x y => Shadow_mul self x y
  | op_mul_scalar x y => Shadow_mul_scalar self x y
  | op_cat x dim => Shadow_cat self x dim
  | op_add_relu x y => Shadow_add_relu self x y
  end.

(** The same invocation sent to a bare module. *)
Definition invoke (m : callable) (i : invocation) : option T :=
  match i with
  | op_forward x => call_forward m x
  | op_add x y => call_add m x y
  | op_add_scalar x y => call_add_scalar m x y
  | op_mul x y => call_mul m x y
  | op_mul_scalar x y => call_mul_scalar m x y
  | op_cat x dim => call_cat m x dim
  | op_add_relu x y => call_add_relu m x y
  end.

(** The operands the float module receives: tensors de-quantized, scalars
    and [dim] passed through. *)
Definition dequantize_operands (i : invocation) : option invocation :=
  match i with
  | op_forward x => op_forward <$> dequantize x
  | op_add x y => x ← dequantize x; y ← dequantize y; Some (op_add x y)
  | op_add_scalar x y => x ← dequantize x; Some (op_add_scalar x y)
  | op_mul x y => x ← dequantize x; y ← dequantize y; Some (op_mul x y)
  | op_mul_scalar x y => x ← dequantize x; Some (op_mul_scalar x y)
  | op_cat x dim => x ← dequantize_all x; Some (op_cat x dim)
  | op_add_relu x y =>
      x ← dequantize x; y ← dequantize y; Some (op_add_relu x y)
  end.

End Methods.
End Shadow.

Arguments callable : clear implicits.
Arguments logger_impl : clear implicits.
Arguments invocation : clear implicits.
Arguments MkShadow {T Scalar Logger}.
Arguments orig_module {T Scalar Logger}.
Arguments shadow_module {T Scalar Logger}.
Arguments logger {T Scalar Logger}.

(** [ShadowLogger] as the logger class of a Shadow wrapper. *)
Definition ShadowLogger_impl {Slice : Type}
    (compatible : tensor Slice → tensor Slice → bool)
  : logger_impl (tensor Slice) :=
  @LoggerImpl (tensor Slice) (stats_record (tensor Slice))
    ShadowLogger_init (ShadowLogger_forward compatible).

(** [OutputLogger] as the logger class of a Shadow wrapper: its [forward]
    takes one argument, so the two-argument call raises [TypeError]. *)
Definition OutputLogger_impl (Slice : Type) : logger_impl (tensor Slice) :=
  @LoggerImpl (tensor Slice) (stats_record (tensor Slice))
    OutputLogger_init (λ _ _ _, None).

(* ================================================================= *)
(** ** Classes *)

(** The logger classes: the base class [Logger], its two subclasses of
    this file, and user-defined loggers deriving directly from [Logger]. *)
Inductive logger_class : Type :=
  | Logger
  | ShadowLogger
  | OutputLogger
  | CustomLogger (name : string).

Global Instance logger_class_eq_dec : EqDecision logger_class.
Proof. solve_decision. Defined.

(** The class of a module object. *)
Inductive py_class : Type :=
  | cls_logger (c : logger_class)
  | cls_Shadow
  | cls_DeQuantize
  | cls_module (name : string).

Global Instance py_class_eq_dec : EqDecision py_class.
Proof. solve_decision. Defined.

(** [issubclass(c, d)] on logger classes. *)
Definition issubclass (c d : logger_class) : bool :=
  bool_decide (c = d) || bool_decide (d = Logger).

(* ================================================================= *)
(** ** Module graphs read as trees: [get_logger_dict] *)

Section StatCollection.
Context {T : Type}.

(** What a module instance is: a logger instance, which owns the [stats]
    dictionary that [Logger.__init__] creates, or an instance of any other
    class. *)
Inductive instance : Type :=
  | logger_instance (c : logger_class) (stats : stats_record T)
  | module_instance (c : py_class).

(** Modelled from the spec: [nn.Module] is not part of this file.  A
    model is a tree of named components (section 3): a module together
    with what its [named_children()] yields, in order. *)
Inductive module_tree : Type :=
  | ModuleNode (self : instance) (children : list (string * module_tree)).

Definition node_instance (m : module_tree) : instance :=
  match m with ModuleNode self _ => self end.

Definition named_children_of (m : module_tree)
  : list (string * module_tree) :=
  match m with ModuleNode _ children => children end.

(** [isinstance(child, Logger)], giving [child.stats] when it holds. *)
Definition logger_stats (child : module_tree) (L : logger_class)
  : option (stats_record T) :=
  match node_instance child with
  | logger_instance c stats => if issubclass c L then Some stats else None
  | module_instance _ => None
  end.

Definition isinstance (child : module_tree) (L : logger_class) : bool :=
  bool_decide (is_Some (logger_stats child L)).

Definition get_prefix (prefix : string) : string :=
  if decide (prefix = "") then prefix else prefix +:+ ".".

(** The first loop of the helper: record the first logger child, [break]. *)
Fixpoint record_logger (children : list (string * module_tree))
    (target_dict : odict (stats_record T)) (L : logger_class)
    (prefix : string) : odict (stats_record T) :=
  match children with
  | [] => target_dict
  | (name, child) :: rest =>
      match logger_stats child L with
      | Some stats => setitem (get_prefix prefix +:+ "stats") stats target_dict
      | None => record_logger rest target_dict L prefix
      end
  end.

(** [get_prefix(prefix) + name if prefix else name]. *)
Definition module_prefix (prefix name : string) : string :=
  if decide (prefix ≠ "") then get_prefix prefix +:+ name else name.

Fixpoint _get_logger_dict_helper (module : module_tree)
    (target_dict : odict (stats_record T)) (L : logger_class)
    (prefix : string) : odict (stats_record T) :=
  match module with
  | ModuleNode _ children =>
      let target_dict := record_logger children target_dict L prefix in
      (fix descend (cs : list (string * module_tree))
           (target_dict : odict (stats_record T)) :=
         match cs with
         | [] => target_dict
         | (name, child) :: rest =>
             descend rest
               (_get_logger_dict_helper child target_dict L
                  (module_prefix prefix name))
         end) children target_dict
  end.

Definition get_logger_dict (module : module_tree) (L : logger_class)
    (prefix : string) : odict (stats_record T) :=
  _get_logger_dict_helper module [] L prefix.

(** The traversal as the specification words it: children that are
    instances of the logger class are not descended into. *)
Fixpoint spec_collect_stats (module : module_tree)
    (target_dict : odict (stats_record T)) (L : logger_class)
    (prefix : string) : odict (stats_record T) :=
  match module with
  | ModuleNode _ children =>
      let target_dict := record_logger children target_dict L prefix in
      (fix descend (cs : list (string * module_tree))
           (target_dict : odict (stats_record T)) :=
         match cs with
         | [] => target_dict
         | (name, child) :: rest =>
             descend rest
               (if isinstance child L then target_dict
                else spec_collect_stats child target_dict L
                       (module_prefix prefix name))
         end) children target_dict
  end.

(** The node reached from [module] by a path of child names. *)
Fixpoint walk (module : module_tree) (path : list string)
  : option module_tree :=
  match path with
  | [] => Some module
  | name :: rest =>
      child ← getitem name (named_children_of module); walk child rest
  end.

(** The stats of the first immediate child that is an instance of [L]. *)
Fixpoint first_logger (children : list (string * module_tree))
    (L : logger_class) : option (stats_record T) :=
  match children with
  | [] => None
  | (_, child) :: rest =>
      match logger_stats child L with
      | Some stats => Some stats
      | None => first_logger rest L
      end
  end.

(** The key under which the node at [path] records its logger. *)
Definition stats_key (path : list string) : string :=
  join_dot (path ++ ["stats"]).

(** A child name as [nn.Module] registers it: not empty, no dot. *)
Definition valid_name (name : string) : Prop :=
  name ≠ "" ∧ split_dot name = [name].

(** Sibling names are valid and pairwise distinct, at every node. *)
Fixpoint well_named (module : module_tree) : Prop :=
  match module with
  | ModuleNode _ children =>
      NoDup (dict_keys children)
      ∧ Forall valid_name (dict_keys children)
      ∧ (fix all (cs : list (string * module_tree)) : Prop :=
           match cs with
           | [] => True
           | (_, child) :: rest => well_named child ∧ all rest
           end) children
  end.

(* ================================================================= *)
(** ** Activation matching: [get_matching_activations] *)

(** One iteration of [for key in quantized_dict]. *)
Definition matching_body (float_dict quantized_dict : odict (stats_record T))
    (act_dict : odict (odict (option T))) (key : string)
  : option (odict (odict (option T))) :=
  match _find_match (sorted_reverse (dict_keys float_dict)) key "stats" with
  | None => Some act_dict
  | Some match_key =>
      let act_dict := setitem key [] act_dict in
      frec ← getitem match_key float_dict;
      fv ← frec !! "tensor_val";
      entry ← getitem key act_dict;
      let act_dict := setitem key (setitem "float" fv entry) act_dict in
      qrec ← getitem key quantized_dict;
      qv ← qrec !! "tensor_val";
      entry ← getitem key act_dict;
      Some (setitem key (setitem "quantized" qv entry) act_dict)
  end.

(** The loop of [get_matching_activations] over two collected
    dictionaries. *)
Definition match_activations (float_dict quantized_dict : odict (stats_record T))
  : option (odict (odict (option T))) :=
  for_each (matching_body float_dict quantized_dict)
    (dict_keys quantized_dict) [].

Definition get_matching_activations (float_module q_module : module_tree)
    (L : logger_class) : option (odict (odict (option T))) :=
  let float_dict := get_logger_dict float_module L "" in
  let quantized_dict := get_logger_dict q_module L "" in
  match_activations float_dict quantized_dict.

(** [compare_model_outputs]: [prepare_model_outputs] and the two forward
    passes are collaborators; [prepared_and_run m data] is the module [m]
    after loggers were attached to it and it was evaluated on [data]. *)
Definition compare_model_outputs
    (prepared_and_run : module_tree → list T → module_tree)
    (float_model q_model : module_tree) (data : list T) (L : logger_class)
  : option (odict (odict (option T))) :=
  let float_model := prepared_and_run float_model data in
  let q_model := prepared_and_run q_model data in
  get_matching_activations float_model q_model L.

End StatCollection.

Arguments instance : clear implicits.
Arguments module_tree : clear implicits.

(* ================================================================= *)
(** ** Module graphs as mutable objects: [prepare_model_with_stubs] *)

(** Object identities. *)
Abbreviation addr := positive.

(** Modelled from the spec: [nn.Module] is not part of this file.  A
    module object, as far as the stub walker reads or writes it, is its
    class (the type tag of section 3) and its child table [_modules],
    which maps a name to a module object or to [None]. *)
Record module_obj : Type := ModuleObj {
  obj_class : py_class;
  obj_modules : odict (option addr)
}.

Abbreviation store := (gmap addr module_obj).

(** [nn.Module.named_children()]: the entries of [_modules] in order,
    without those that hold [None] and without those whose module was
    already yielded under an earlier name ([memo]). *)
Fixpoint yield_children (memo : list addr) (items : odict (option addr))
  : list (string * addr) :=
  match items with
  | [] => []
  | (name, None) :: rest => yield_children memo rest
  | (name, Some module) :: rest =>
      if decide (module ∈ memo) then yield_children memo rest
      else (name, module) :: yield_children (module :: memo) rest
  end.

(** [m.named_children()]. *)
Definition named_children (h : store) (m : addr)
  : option (list (string * addr)) :=
  o ← h !! m; Some (yield_children [] (obj_modules o)).

(** [type(m)]. *)
Definition type_of (h : store) (m : addr) : option py_class :=
  obj_class <$> h !! m.

(** [m._modules[key] = value]. *)
Definition set_module (m : addr) (h : store) (kv : string * addr)
  : option store :=
  o ← h !! m;
  Some (<[m := ModuleObj (obj_class o)
                 (setitem kv.1 (Some kv.2) (obj_modules o))]> h).

(** [Shadow(q_module, float_module, Logger)]: three new objects, the
    wrapper with its four children in registration order, the
    [nnq.DeQuantize()] and the [Logger()] instance. *)
Definition new_Shadow (q_module float_module : addr) (L : logger_class)
    (h : store) : addr * store :=
  let self := fresh (dom h) in
  let dequant := fresh ({[self]} ∪ dom h) in
  let logger := fresh ({[dequant]} ∪ ({[self]} ∪ dom h)) in
  (self,
   <[logger := ModuleObj (cls_logger L) []]>
     (<[dequant := ModuleObj cls_DeQuantize []]>
        (<[self := ModuleObj cls_Shadow
                     [("orig_module", Some q_module);
                      ("shadow_module", Some float_module);
                      ("dequant", Some dequant);
                      ("logger", Some logger)]]> h))).

(** [float_module_children = {}] filled from [named_children()]. *)
Definition children_dict (items : list (string * addr)) : odict addr :=
  foldl (λ d item, setitem item.1 item.2 d) [] items.

(** The body of [for name, mod in q_module.named_children()], on the
    store and the [reassign] dictionary; [recurse] is the recursive call.
    The class of an object never changes, so [type(float_mod)] is read
    once for the two tests. *)
Definition stubs_body (recurse : addr → addr → store → option store)
    (float_module_children : odict addr) (module_swap_list : list py_class)
    (L : logger_class) (st : store * odict addr) (item : string * addr)
  : option (store * odict addr) :=
  let '(h, reassign) := st in
  let '(name, mod_) := item in
  match getitem name float_module_children with
  | None => Some (h, reassign)
  | Some float_mod =>
      ty ← type_of h float_mod;
      if decide (ty ∈ module_swap_list) then
        let '(shadow, h) := new_Shadow mod_ float_mod L h in
        Some (h, setitem name shadow reassign)
      else
        h ← recurse float_mod mod_ h;
        Some (h, reassign)
  end.

(** The loop [for name, mod in q_module.named_children()] at the entry
    [name] of the table of [q_module].  [named_children()] is a generator:
    it reads the entry when the loop arrives at it, as the table holds it
    then (a recursive call may have reassigned it when the graph has a
    cycle), skips it when it holds [None] or a module that was already
    yielded ([memo]), and otherwise hands it to the body.  No call adds or
    removes a name of a table, so the names are those the table has when
    the loop starts; a name that is missing stands for the [RuntimeError]
    of a dictionary that changed during iteration. *)
Definition stubs_step (recurse : addr → addr → store → option store)
    (float_module_children : odict addr) (module_swap_list : list py_class)
    (L : logger_class) (q_module : addr)
    (st : store * odict addr * list addr) (name : string)
  : option (store * odict addr * list addr) :=
  let '(h, reassign, memo) := st in
  o ← h !! q_module;
  entry ← getitem name (obj_modules o);
  match entry with
  | None => Some st
  | Some mod_ =>
      if decide (mod_ ∈ memo) then Some st
      else
        st' ← stubs_body recurse float_module_children module_swap_list L
                (h, reassign) (name, mod_);
        Some (st', mod_ :: memo)
  end.

(** The walker.  Recursion follows the quantized graph, which Python
    bounds only by its recursion limit, hence the fuel ([None] also when it
    runs out).  The children of [float_module] are collected before
    anything is written; the table of [q_module] is written after its
    loop. *)
Fixpoint prepare_model_with_stubs (fuel : nat)
    (float_module q_module : addr) (module_swap_list : list py_class)
    (L : logger_class) (h : store) : option store :=
  match fuel with
  | O => None
  | S fuel =>
      fch ← named_children h float_module;
      let float_module_children := children_dict fch in
      q ← h !! q_module;
      st ← for_each
             (stubs_step
                (λ float_mod mod_ h,
                   prepare_model_with_stubs fuel float_mod mod_
                     module_swap_list L h)
                float_module_children module_swap_list L q_module)
             (dict_keys (obj_modules q)) (h, [], []);
      for_each (set_module q_module) st.1.2 st.1.1
  end.

(** *** Module graphs that are trees *)

(** A tree of module objects: the address and class of each object and
    its named children. *)
Inductive obj_tree : Type :=
  | ObjTree (a : addr) (c : py_class) (children : list (string * obj_tree)).

Definition root (t : obj_tree) : addr :=
  match t with ObjTree a _ _ => a end.

Definition class_of (t : obj_tree) : py_class :=
  match t with ObjTree _ c _ => c end.

Definition subtrees (t : obj_tree) : list (string * obj_tree) :=
  match t with ObjTree _ _ children => children end.

(** All the objects of a tree. *)
Fixpoint addrs (t : obj_tree) : list addr :=
  match t with
  | ObjTree a _ children =>
      a :: (fix go (cs : list (string * obj_tree)) : list addr :=
              match cs with
              | [] => []
              | (_, child) :: rest => addrs child ++ go rest
              end) children
  end.

Fixpoint depth (t : obj_tree) : nat :=
  match t with
  | ObjTree _ _ children =>
      S ((fix go (cs : list (string * obj_tree)) : nat :=
            match cs with
            | [] => 0
            | (_, child) :: rest => Nat.max (depth child) (go rest)
            end) children)
  end.

(** The child table of a node: every entry holds a module. *)
Definition table_of (children : list (string * obj_tree))
  : odict (option addr) :=
  prod_map id (λ child, Some (root child)) <$> children.

(** The store holds the tree [t]: every object of [t] is in the store
    with the class and the child table the tree gives it. *)
Fixpoint holds (h : store) (t : obj_tree) : Prop :=
  match t with
  | ObjTree a c children =>
      h !! a = Some (ModuleObj c (table_of children))
      ∧ (fix all (cs : list (string * obj_tree)) : Prop :=
           match cs with
           | [] => True
           | (_, child) :: rest => holds h child ∧ all rest
           end) children
  end.

(** Sibling names are pairwise distinct at every node. *)
Fixpoint unique_names (t : obj_tree) : Prop :=
  match t with
  | ObjTree _ _ children =>
      NoDup (dict_keys children)
      ∧ (fix all (cs : list (string * obj_tree)) : Prop :=
           match cs with
           | [] => True
           | (_, child) :: rest => unique_names child ∧ all rest
           end) children
  end.

(** The Shadow wrapper of quantized child [qc] and float child [fc], made
    of the new objects [s], [d] and [l]. *)
Definition Shadow_tree (s d l : addr) (L : logger_class) (qc fc : obj_tree)
  : obj_tree :=
  ObjTree s cls_Shadow
    [("orig_module", qc);
     ("shadow_module", fc);
     ("dequant", ObjTree d cls_DeQuantize []);
     ("logger", ObjTree l (cls_logger L) [])].

(** Stub substitution as the specification states it: [tq'] is [tq] where
    each child with a same-named float sibling of a swapped type is
    replaced by a Shadow wrapper of the two original children, made of
    objects outside [old]; a child whose float sibling has another type is
    itself substituted against that sibling; a child with no float sibling
    stays as it is. *)
Fixpoint stubbed (old : gset addr) (module_swap_list : list py_class)
    (L : logger_class) (tf tq tq' : obj_tree) : Prop :=
  match tq with
  | ObjTree a c children =>
      root tq' = a ∧ class_of tq' = c
      ∧ (fix each (cs cs' : list (string * obj_tree)) : Prop :=
           match cs, cs' with
           | [], [] => True
           | (name, qc) :: rest, (name', qc') :: rest' =>
               name' = name
               ∧ match getitem name (subtrees tf) with
                 | None => qc' = qc
                 | Some fc =>
                     if decide (class_of fc ∈ module_swap_list) then
                       ∃ s d l, (s ∉ old) ∧ (d ∉ old) ∧ (l ∉ old)
                                ∧ qc' = Shadow_tree s d l L qc fc
                     else stubbed old module_swap_list L fc qc qc'
                 end
               ∧ each rest rest'
           | _, _ => False
           end) children (subtrees tq')
  end.

(* ================================================================= *)
(** ** Notions used to state the properties *)

(** *** Comparison entries *)

(** The entry that [compare_weights] emits for a quantized name. *)
Definition weight_entry {Tensor} (float_dict quantized_dict : odict Tensor)
    (key : string) : option (odict Tensor) :=
  match_key ← _find_match (dict_keys float_dict) key "weight";
  fv ← getitem match_key float_dict;
  qv ← getitem key quantized_dict;
  Some [("float", fv); ("quantized", qv)].

(** The float stat path that the activation matching pairs with the
    quantized path [key]: the greatest, in string order, of the float paths
    that qualify, [key] ending in the segment ["stats"]. *)
Definition greatest_match {T} (float_dict : odict (stats_record T))
    (key match_key : string) : Prop :=
  last_item (split_dot key) = Some "stats"
  ∧ match_key ∈ dict_keys float_dict
  ∧ qualifies key match_key
  ∧ ∀ c, c ∈ dict_keys float_dict → qualifies key c → string_ge match_key c.

(** The two records that an entry for [key] is read from, [match_key]
    being the matched float path. *)
Definition matched_records {T}
    (float_dict quantized_dict : odict (stats_record T))
    (key match_key : string) (frec qrec : stats_record T) : Prop :=
  key ∈ dict_keys quantized_dict
  ∧ greatest_match float_dict key match_key
  ∧ getitem match_key float_dict = Some frec
  ∧ getitem key quantized_dict = Some qrec.

(** The entry that [get_matching_activations] emits for a quantized stat
    path. *)
Definition activation_entry {T}
    (float_dict quantized_dict : odict (stats_record T)) (key : string)
  : option (odict (option T)) :=
  match_key ← _find_match (sorted_reverse (dict_keys float_dict)) key "stats";
  frec ← getitem match_key float_dict;
  fv ← frec !! "tensor_val";
  qrec ← getitem key quantized_dict;
  qv ← qrec !! "tensor_val";
  Some [("float", fv); ("quantized", qv)].

(** *** Accumulated slots *)

(** The value of a slot that held [acc] after the values [xs] were
    recorded, in order. *)
Definition accumulated {Slice} (acc : option (tensor Slice))
    (xs : list (tensor Slice)) : option (tensor Slice) :=
  match xs with
  | [] => acc
  | _ :: _ => Some (default [] acc ++ torch_cat_all xs)
  end.

(** Every concatenation is accepted by the library when the values [xs]
    are recorded, in order, after [acc]. *)
Fixpoint accepted {Slice} (compatible : tensor Slice → tensor Slice → bool)
    (acc : tensor Slice) (xs : list (tensor Slice)) : bool :=
  match xs with
  | [] => true
  | x :: rest => compatible acc x && accepted compatible (acc ++ x) rest
  end.

(** *** The stat collection, loop by loop *)

(** The second loop of [_get_logger_dict_helper]. *)
Definition descend {T} (L : logger_class) (prefix : string)
    (cs : list (string * module_tree T)) (td : odict (stats_record T))
  : odict (stats_record T) :=
  foldl (λ td nc,
           _get_logger_dict_helper nc.2 td L (module_prefix prefix nc.1))
        td cs.

(** Frame: the helper writes only keys of the paths below its node. *)
Definition helper_frame {T} (L : logger_class) (t : module_tree T) : Prop :=
  ∀ (td : odict (stats_record T)) (path : list string) (key : string),
    well_named t → Forall valid_name path →
    (∀ sub, Forall valid_name sub → key ≠ stats_key (path ++ sub)) →
    getitem key (_get_logger_dict_helper t td L (join_dot path))
    = getitem key td.

(** Hit: the logger of every node is recorded under the node's path. *)
Definition helper_hit {T} (L : logger_class) (t : module_tree T) : Prop :=
  ∀ (td : odict (stats_record T)) (path sub : list string)
    (node : module_tree T) (r : stats_record T),
    well_named t → Forall valid_name path →
    walk t sub = Some node →
    first_logger (named_children_of node) L = Some r →
    getitem (stats_key (path ++ sub))
      (_get_logger_dict_helper t td L (join_dot path)) = Some r.

(** Only: every recorded entry is the logger of some node. *)
Definition helper_only {T} (L : logger_class) (t : module_tree T) : Prop :=
  ∀ (td : odict (stats_record T)) (path : list string) (key : string)
    (r : stats_record T),
    well_named t → Forall valid_name path →
    getitem key (_get_logger_dict_helper t td L (join_dot path)) = Some r →
    getitem key td = Some r
    ∨ ∃ sub node, walk t sub = Some node ∧ key = stats_key (path ++ sub)
                  ∧ first_logger (named_children_of node) L = Some r.

(** *** The stub walker on trees *)

(** The table of [q_module] after the reassignments. *)
Definition apply_reassign (reassign : odict addr)
    (table : odict (option addr)) : odict (option addr) :=
  foldl (λ table kv, setitem kv.1 (Some kv.2) table) table reassign.

(** The objects of a list of named subtrees. *)
Definition child_addrs (cs : list (string * obj_tree)) : list addr :=
  cs ≫= (λ nc, addrs nc.2).

(** The relation [stubbed] puts between a child and its replacement. *)
Definition child_stubbed (old : gset addr) (module_swap_list : list py_class)
    (L : logger_class) (tf : obj_tree) (nc nc' : string * obj_tree) : Prop :=
  nc'.1 = nc.1
  ∧ match getitem nc.1 (subtrees tf) with
    | None => nc'.2 = nc.2
    | Some fc =>
        if decide (class_of fc ∈ module_swap_list) then
          ∃ s d l, (s ∉ old) ∧ (d ∉ old) ∧ (l ∉ old)
                   ∧ nc'.2 = Shadow_tree s d l L nc.2 fc
        else stubbed old module_swap_list L fc nc.2 nc'.2
    end.

(** Every object of [h] is still in [h'], with the class it had and a
    child table over the same names in the same order. *)
Definition preserved (h h' : store) : Prop :=
  ∀ a o, h !! a = Some o →
    ∃ o', h' !! a = Some o' ∧ obj_class o' = obj_class o
          ∧ dict_keys (obj_modules o') = dict_keys (obj_modules o).

(** The loop body of a call on the float tree [tf]. *)
Definition loop_body (swap : list py_class) (L : logger_class) (fuel : nat)
    (tf : obj_tree) : store * odict addr → string * addr
                      → option (store * odict addr) :=
  stubs_body (λ f q h, prepare_model_with_stubs fuel f q swap L h)
    (prod_map id root <$> subtrees tf) swap L.

(** The loop of a call on the float tree [tf] and the quantized module
    [q], entry by entry. *)
Definition loop_step (swap : list py_class) (L : logger_class) (fuel : nat)
    (tf : obj_tree) (q : addr)
  : store * odict addr * list addr → string
    → option (store * odict addr * list addr) :=
  stubs_step (λ f q h, prepare_model_with_stubs fuel f q swap L h)
    (prod_map id root <$> subtrees tf) swap L q.

(** The hypotheses under which the walker is followed on a pair of trees,
    and what it then does. *)
Definition prepare_ok (swap : list py_class) (L : logger_class)
    (tq : obj_tree) : Prop :=
  ∀ tf h (old : gset addr) (fuel : nat),
    holds h tq → holds h tf →
    NoDup (addrs tq) → NoDup (addrs tf) →
    (∀ a, a ∈ addrs tq → a ∉ addrs tf) →
    unique_names tq → unique_names tf →
    (depth tq ≤ fuel)%nat → old ⊆ dom h →
    ∃ h' tq',
      prepare_model_with_stubs fuel (root tf) (root tq) swap L h = Some h'
      ∧ holds h' tq'
      ∧ stubbed old swap L tf tq tq'
      ∧ (∀ a, a ∈ dom h → a ∉ addrs tq → h' !! a = h !! a)
      ∧ (∀ a, a ∈ addrs tq' → a ∈ addrs tq ∨ a ∈ addrs tf ∨ a ∉ dom h).

(* ================================================================= *)
(** ** Sample inputs *)

(** Parameter stores where the float model has one extra wrapper level,
    next to parameters that are no weights. *)
Definition sample_float_store : odict nat :=
  [("fc.weight", 1); ("fc.bias", 2); ("conv.module.weight", 3)].

Definition sample_quantized_store : odict nat :=
  [("fc.weight", 10); ("fc.bias", 11); ("fc.scale", 12);
   ("conv.weight", 13); ("q.weight", 14)].

Definition sample_weight_dict : odict (odict nat) :=
  [("fc.weight", [("float", 1); ("quantized", 10)]);
   ("conv.weight", [("float", 3); ("quantized", 13)])].

(** A quantized and a float functional module on tensors of integers,
    wrapped with a [ShadowLogger]. *)
Definition sample_quantized_module : callable (tensor Z) Z :=
  @Callable (tensor Z) Z
    (λ x, Some x)
    (λ x y, Some (zip_with Z.add x y))
    (λ x c, Some (Z.add c <$> x))
    (λ x y, Some (zip_with Z.mul x y))
    (λ x c, Some (Z.mul c <$> x))
    (λ xs _, Some (concat xs))
    (λ x y, Some (Z.max 0 <$> zip_with Z.add x y)).

Definition sample_float_module : callable (tensor Z) Z :=
  @Callable (tensor Z) Z
    (λ x, Some x)
    (λ x y, Some (zip_with Z.add x y))
    (λ x c, Some (Z.add (2 * c) <$> x))
    (λ x y, Some (zip_with Z.mul x y))
    (λ x c, Some (Z.mul (2 * c) <$> x))
    (λ xs _, Some (concat xs))
    (λ x y, Some (Z.max 0 <$> zip_with Z.add x y)).

Definition sample_dequantize (x : tensor Z) : option (tensor Z) :=
  Some (Z.mul 2 <$> x).

(** One-dimensional tensors: the slices are numbers, and [torch.cat]
    accepts every pair. *)
Definition cat_1d {A} (a b : tensor A) : bool := true.

(** Two-dimensional tensors as lists of rows: [torch.cat] accepts two
    tensors whose rows have the same width. *)
Definition same_width {A} (a b : tensor (list A)) : bool :=
  forallb (λ r, forallb (λ r', Nat.eqb (length r) (length r')) b) a.

Definition sample_Shadow : Shadow (ShadowLogger_impl (@cat_1d Z)) :=
  Shadow_init sample_quantized_module sample_float_module
    (ShadowLogger_impl cat_1d).

(** Two collected dictionaries: the float model has one wrapper level more
    at [conv]; the quantized model has a path without counterpart. *)
Definition sample_float_stats : odict (stats_record nat) :=
  [("conv.module.stats", {["tensor_val" := Some 1]});
   ("fc.stats", {["tensor_val" := Some 2]})].

Definition sample_quantized_stats : odict (stats_record nat) :=
  [("conv.stats", {["tensor_val" := Some 10]});
   ("quant.stats", {["tensor_val" := Some 11]});
   ("fc.stats", {["tensor_val" := Some 12]})].

(** A module with an [OutputLogger] child that itself has an
    [OutputLogger] child, next to a plain module with its own logger. *)
Definition nested_logger_tree : module_tree nat :=
  ModuleNode (module_instance (cls_module "Net"))
    [("lg", ModuleNode (logger_instance OutputLogger {["tensor_val" := Some 1]})
              [("inner", ModuleNode
                           (logger_instance OutputLogger
                              {["tensor_val" := Some 2]}) [])]);
     ("fc", ModuleNode (module_instance (cls_module "Linear"))
              [("activation_post_process",
                ModuleNode (logger_instance OutputLogger
                              {["tensor_val" := Some 3]}) [])])].

(** A float model and its quantized counterpart, which has a [quant]
    stub without float sibling, and the store that holds both. *)
Definition sample_float_tree : obj_tree :=
  ObjTree 1 (cls_module "Net")
    [("conv", ObjTree 2 (cls_module "Conv2d") []);
     ("sub", ObjTree 3 (cls_module "Sequential")
               [("fc", ObjTree 4 (cls_module "Linear") [])])].

Definition sample_quantized_tree : obj_tree :=
  ObjTree 11 (cls_module "Net")
    [("quant", ObjTree 15 (cls_module "Quantize") []);
     ("conv", ObjTree 12 (cls_module "QuantizedConv2d") []);
     ("sub", ObjTree 13 (cls_module "Sequential")
               [("fc", ObjTree 14 (cls_module "QuantizedLinear") [])])].

Definition sample_store : store :=
  list_to_map
    [(1%positive, ModuleObj (cls_module "Net")
                    [("conv", Some 2%positive); ("sub", Some 3%positive)]);
     (2%positive, ModuleObj (cls_module "Conv2d") []);
     (3%positive, ModuleObj (cls_module "Sequential")
                    [("fc", Some 4%positive)]);
     (4%positive, ModuleObj (cls_module "Linear") []);
     (11%positive, ModuleObj (cls_module "Net")
                     [("quant", Some 15%positive); ("conv", Some 12%positive);
                      ("sub", Some 13%positive)]);
     (12%positive, ModuleObj (cls_module "QuantizedConv2d") []);
     (13%positive, ModuleObj (cls_module "Sequential")
                     [("fc", Some 14%positive)]);
     (14%positive, ModuleObj (cls_module "QuantizedLinear") []);
     (15%positive, ModuleObj (cls_module "Quantize") [])].

(** A quantized module that has one object under the two names [a] and
    [b], next to a float module with two children of these names. *)
Definition twice_registered_store : store :=
  list_to_map
    [(1%positive, ModuleObj (cls_module "Net")
                    [("a", Some 2%positive); ("b", Some 3%positive)]);
     (2%positive, ModuleObj (cls_module "Linear") []);
     (3%positive, ModuleObj (cls_module "Linear") []);
     (11%positive, ModuleObj (cls_module "Net")
                     [("a", Some 12%positive); ("b", Some 12%positive)]);
     (12%positive, ModuleObj (cls_module "QuantizedLinear") [])].

(** A float and a quantized module that have the same container object as
    their child [sub]. *)
Definition shared_container_store : store :=
  list_to_map
    [(1%positive, ModuleObj (cls_module "Net") [("sub", Some 3%positive)]);
     (3%positive, ModuleObj (cls_module "Sequential")
                    [("fc", Some 4%positive)]);
     (4%positive, ModuleObj (cls_module "Linear") []);
     (11%positive, ModuleObj (cls_module "Net") [("sub", Some 3%positive)])].

Definition sample_swap_list : list py_class :=
  [cls_module "Conv2d"; cls_module "Linear"].

(** Decidable facts about the samples are settled by evaluation. *)
Ltac by_computation := apply (bool_decide_unpack _); vm_compute; exact I.

(* ================================================================= *)
(** * Properties *)

(** ** Strings, slices and dictionaries *)

Lemma split_dot_nonempty s : split_dot s ≠ [].
Proof.
  destruct s as [|c r]; simpl; [done|].
  destruct (Ascii.eqb c "."); [done|]. by destruct (split_dot r).
Qed.

Lemma last_item_split_dot s : is_Some (last_item (split_dot s)).
Proof.
  unfold last_item. destruct (last (split_dot s)) eqn:E; [by eexists|].
  apply last_None in E. by apply split_dot_nonempty in E.
Qed.

Section Dict.
Context {V : Type}.
Implicit Types (d : odict V) (k : string) (v : V).

Lemma getitem_setitem_eq k v d : getitem k (setitem k v d) = Some v.
Proof.
  induction d as [|[k' v'] d IH]; simpl.
  - by rewrite decide_True.
  - destruct (decide (k' = k)) as [->|Hne]; simpl.
    + by rewrite decide_True.
    + by rewrite decide_False.
Qed.

Lemma getitem_setitem_ne k k' v d :
  k ≠ k' → getitem k' (setitem k v d) = getitem k' d.
Proof.
  intros Hne. induction d as [|[k0 v0] d IH]; simpl.
  - by rewrite decide_False.
  - destruct (decide (k0 = k)) as [->|Hne0]; simpl.
    + by rewrite !decide_False.
    + destruct (decide (k0 = k')); [done|]. apply IH.
Qed.

Lemma getitem_setitem k k' v d :
  getitem k' (setitem k v d) = if decide (k = k') then Some v else getitem k' d.
Proof.
  destruct (decide (k = k')) as [->|Hne].
  - apply getitem_setitem_eq.
  - by apply getitem_setitem_ne.
Qed.

Lemma setitem_setitem k v v' d : setitem k v (setitem k v' d) = setitem k v d.
Proof.
  induction d as [|[k0 v0] d IH]; simpl.
  - by rewrite decide_True.
  - destruct (decide (k0 = k)) as [->|Hne]; simpl.
    + by rewrite decide_True.
    + rewrite decide_False by done. by rewrite IH.
Qed.

Lemma elem_of_dict_keys k d : k ∈ dict_keys d ↔ is_Some (getitem k d).
Proof.
  unfold dict_keys. induction d as [|[k0 v0] d IH]; simpl.
  - rewrite elem_of_nil. split; [done|]. by intros [? ?].
  - rewrite elem_of_cons. destruct (decide (k0 = k)) as [->|Hne].
    + split; [by eexists | by left].
    + rewrite <- IH. naive_solver.
Qed.

Lemma getitem_Some_elem_of k v d : getitem k d = Some v → (k, v) ∈ d.
Proof.
  induction d as [|[k0 v0] d IH]; simpl; [done|].
  destruct (decide (k0 = k)) as [->|Hne].
  - intros [= ->]. left.
  - intros H. right. by apply IH.
Qed.

Lemma getitem_NoDup k v d :
  NoDup (dict_keys d) → (k, v) ∈ d → getitem k d = Some v.
Proof.
  unfold dict_keys.
  induction d as [|[k0 v0] d IH]; simpl; [by rewrite elem_of_nil|].
  rewrite NoDup_cons, elem_of_cons. intros [Hk0 Hnd] [[= -> ->]|Hin].
  - by rewrite decide_True.
  - rewrite decide_False; [by apply IH|].
    intros ->. apply Hk0. apply list_elem_of_fmap. by exists (k, v).
Qed.

Lemma dict_keys_setitem k k' v d :
  k' ∈ dict_keys (setitem k v d) ↔ k' = k ∨ k' ∈ dict_keys d.
Proof.
  rewrite !elem_of_dict_keys, getitem_setitem.
  destruct (decide (k = k')) as [->|Hne]; [split; [by left | by eexists]|].
  naive_solver.
Qed.

End Dict.

(** ** Loops *)

Lemma for_each_ext {S A} (f g : S → A → option S) items s :
  (∀ s x, f s x = g s x) → for_each f items s = for_each g items s.
Proof.
  intros Hfg. revert s. induction items as [|x items IH]; intros s; simpl.
  - done.
  - rewrite Hfg. destruct (g s x); simpl; [apply IH | done].
Qed.

(** A loop that stores, for each selected key, the entry computed for it:
    the comparison loops of [compare_weights] and
    [get_matching_activations]. *)
Lemma for_each_setitem {V} (selected : string → Prop)
    `{∀ k, Decision (selected k)} (entry : string → option V)
    (keys : list string) (d : odict V) :
  (∀ k, k ∈ keys → selected k → is_Some (entry k)) →
  ∃ d',
    for_each (λ d k, if decide (selected k)
                     then e ← entry k; Some (setitem k e d)
                     else Some d) keys d = Some d'
    ∧ ∀ k, getitem k d' =
        if decide (k ∈ keys ∧ selected k) then entry k else getitem k d.
Proof.
  revert d. induction keys as [|k0 keys IH]; intros d Hentry.
  - exists d. split; [done|]. intros k.
    rewrite decide_False; [done|]. rewrite elem_of_nil. tauto.
  - simpl. assert (∀ k, k ∈ keys → selected k → is_Some (entry k)) as Hrest
      by (intros k Hk; apply Hentry; by right).
    destruct (decide (selected k0)) as [Hsel|Hsel].
    + destruct (Hentry k0) as [e He]; [by left | done |].
      rewrite He; simpl.
      destruct (IH (setitem k0 e d) Hrest) as (d' & -> & Hget).
      exists d'. split; [done|]. intros k. rewrite Hget, getitem_setitem.
      repeat case_decide; subst; try done;
        rewrite ?elem_of_cons in *; naive_solver.
    + simpl. destruct (IH d Hrest) as (d' & -> & Hget).
      exists d'. split; [done|]. intros k. rewrite Hget.
      repeat case_decide; subst; try done;
        rewrite ?elem_of_cons in *; naive_solver.
Qed.

(** ** The name matcher *)

Lemma find_match_loop_Some ms l s2 :
  _find_match_loop ms l = Some s2 ↔
  ∃ before after, l = before ++ s2 :: after
    ∧ (ms = join_empty (slice_to_neg 1 (split_dot s2))
       ∨ ms = join_empty (slice_to_neg 2 (split_dot s2)))
    ∧ Forall (λ c, ¬ (ms = join_empty (slice_to_neg 1 (split_dot c))
                      ∨ ms = join_empty (slice_to_neg 2 (split_dot c)))) before.
Proof.
  induction l as [|c l IH]; simpl.
  - split; [done|]. intros (b & a & Hl & _). by destruct b.
  - destruct (decide (ms = join_empty (slice_to_neg 1 (split_dot c)))) as [H1|H1].
    { split.
      - intros [= ->]. exists [], l. by repeat split; [left|constructor].
      - intros ([|c' b] & a & Hl & Hq & Hb); simplify_eq/=; [done|].
        apply Forall_cons in Hb as [Hb _]. destruct Hb. by left. }
    destruct (decide (ms = join_empty (slice_to_neg 2 (split_dot c)))) as [H2|H2].
    { split.
      - intros [= ->]. exists [], l. by repeat split; [right|constructor].
      - intros ([|c' b] & a & Hl & Hq & Hb); simplify_eq/=; [done|].
        apply Forall_cons in Hb as [Hb _]. destruct Hb. by right. }
    rewrite IH. split.
    + intros (b & a & -> & Hq & Hb). exists (c :: b), a.
      repeat split; [done|]. constructor; [tauto|done].
    + intros ([|c' b] & a & Hl & Hq & Hb); simplify_eq/=; [tauto|].
      apply Forall_cons in Hb as [_ Hb]. by exists b, a.
Qed.

Lemma find_match_loop_None ms l :
  _find_match_loop ms l = None ↔
  Forall (λ c, ¬ (ms = join_empty (slice_to_neg 1 (split_dot c))
                  ∨ ms = join_empty (slice_to_neg 2 (split_dot c)))) l.
Proof.
  induction l as [|c l IH]; simpl; [by split; [constructor|]|].
  rewrite Forall_cons. repeat case_decide; try (split; [done | tauto]).
  rewrite IH. tauto.
Qed.

Lemma find_match_elem_of l key postfix m :
  _find_match l key postfix = Some m → m ∈ l.
Proof.
  unfold _find_match. case_decide; [|done].
  intros (b & a & -> & _)%find_match_loop_Some. set_solver.
Qed.

Lemma find_match_suffix l key postfix m :
  _find_match l key postfix = Some m → last_item (split_dot key) = Some postfix.
Proof. unfold _find_match. by case_decide. Qed.

(** C2 (as amended).  [_find_match] returns [None] when the last
    dot-separated segment of the target differs from the suffix.  Otherwise
    it returns the first candidate, in iteration order, that qualifies --
    the concatenation without separator of its segments minus the last one,
    or minus the last two, equals the concatenation without separator of
    the target's segments minus the last -- and [None] when no candidate
    qualifies.  In particular the candidate ["a.b.weight"] does not match
    the target ["x.a.b.weight"]. *)
Theorem find_match_contract (str_list : list string) (key_str postfix : string) :
  (last_item (split_dot key_str) ≠ Some postfix →
     _find_match str_list key_str postfix = None)
  ∧ (last_item (split_dot key_str) = Some postfix →
     (∀ s2, _find_match str_list key_str postfix = Some s2 ↔
        ∃ before after, str_list = before ++ s2 :: after
          ∧ qualifies key_str s2
          ∧ Forall (λ c, ¬ qualifies key_str c) before)
     ∧ (_find_match str_list key_str postfix = None ↔
        Forall (λ c, ¬ qualifies key_str c) str_list))
  ∧ _find_match ["a.b.weight"] "x.a.b.weight" "weight" = None.
Proof.
  split; [|split]; [| |reflexivity].
  - intros Hne. unfold _find_match. by rewrite decide_False.
  - intros Heq. unfold _find_match. rewrite decide_True by done.
    split.
    + intros s2. apply find_match_loop_Some.
    + apply find_match_loop_None.
Qed.

(** The contract at a concrete input: both stripping depths, and the
    first match winning. *)
Lemma find_match_contract_witness :
  _find_match ["q.weight"; "a.b.weight"; "a.weight"] "a.weight" "weight"
    = Some "a.b.weight"
  ∧ _find_match ["a.weight"] "a.bias" "weight" = None.
Proof.
  pose proof (find_match_contract ["q.weight"; "a.b.weight"; "a.weight"]
                "a.weight" "weight") as (_ & H & _).
  pose proof (find_match_contract ["a.weight"] "a.bias" "weight") as (Hn & _).
  split.
  - apply H; [reflexivity|].
    exists ["q.weight"], ["a.weight"]. split; [reflexivity|]. split.
    + right. reflexivity.
    + constructor; [|constructor]. intros [Hq|Hq]; vm_compute in Hq; discriminate.
  - apply Hn. vm_compute. discriminate.
Defined.

(** C2, counterexample.  The claim requires the candidate ["a.b.weight"]
    to match the target ["x.a.b.weight"]; the code returns [None].  It also
    compares the stripped names as dotted names; the code concatenates the
    segments without the dots, so ["ab.weight"] matches ["a.b.weight"],
    which the matcher as specified rejects. *)
Lemma find_match_claim_fails :
  _find_match ["a.b.weight"] "x.a.b.weight" "weight" = None
  ∧ _find_match ["ab.weight"] "a.b.weight" "weight" = Some "ab.weight"
  ∧ spec_find_match ["ab.weight"] "a.b.weight" "weight" = None.
Proof. repeat split; vm_compute; reflexivity. Qed.

(** ** The weight comparator *)

Section WeightProperties.
Context {Tensor : Type}.
Implicit Types (float_dict quantized_dict : odict Tensor).
Implicit Types (weight_dict : odict (odict Tensor)).

Lemma compare_weights_body_entry float_dict quantized_dict weight_dict key :
  compare_weights_body float_dict quantized_dict weight_dict key =
  if decide (is_Some (_find_match (dict_keys float_dict) key "weight"))
  then entry ← weight_entry float_dict quantized_dict key;
       Some (setitem key entry weight_dict)
  else Some weight_dict.
Proof.
  unfold compare_weights_body, weight_entry.
  destruct (_find_match _ key "weight") as [m|]; simpl; [|done].
  destruct (getitem m float_dict) as [fv|]; simpl; [|done].
  rewrite getitem_setitem_eq; simpl. rewrite setitem_setitem.
  destruct (getitem key quantized_dict) as [qv|]; simpl; [|done].
  rewrite getitem_setitem_eq; simpl. by rewrite setitem_setitem.
Qed.

Lemma weight_entry_is_Some float_dict quantized_dict key :
  key ∈ dict_keys quantized_dict →
  is_Some (_find_match (dict_keys float_dict) key "weight") →
  is_Some (weight_entry float_dict quantized_dict key).
Proof.
  intros [qv Hq]%elem_of_dict_keys [m Hm]. unfold weight_entry.
  rewrite Hm; simpl.
  apply find_match_elem_of, elem_of_dict_keys in Hm as [fv ->]; simpl.
  rewrite Hq; simpl. by eexists.
Qed.

Lemma compare_weights_loop float_dict quantized_dict :
  ∃ weight_dict,
    compare_weights float_dict quantized_dict = Some weight_dict
    ∧ ∀ key, getitem key weight_dict =
        if decide (key ∈ dict_keys quantized_dict
                   ∧ is_Some (_find_match (dict_keys float_dict) key "weight"))
        then weight_entry float_dict quantized_dict key
        else None.
Proof.
  unfold compare_weights.
  rewrite (for_each_ext _ _ _ _
             (compare_weights_body_entry float_dict quantized_dict)).
  apply (for_each_setitem
           (λ key, is_Some (_find_match (dict_keys float_dict) key "weight"))
           (weight_entry float_dict quantized_dict)).
  intros k Hk Hsel. by apply weight_entry_is_Some.
Qed.

(** C4.  [compare_weights] never fails.  The keys of its result are
    exactly the names of the quantized store for which [_find_match] with
    suffix ["weight"] finds a name of the float store, and the entry of such
    a name maps ["float"] to the float store's value at the matched name
    and ["quantized"] to the quantized store's value at the name itself,
    both unchanged.  Unmatched names are absent. *)
Theorem compare_weights_spec float_dict quantized_dict :
  ∃ weight_dict,
    compare_weights float_dict quantized_dict = Some weight_dict
    ∧ (∀ key, key ∈ dict_keys weight_dict ↔
         key ∈ dict_keys quantized_dict
         ∧ is_Some (_find_match (dict_keys float_dict) key "weight"))
    ∧ (∀ key match_key,
         key ∈ dict_keys quantized_dict →
         _find_match (dict_keys float_dict) key "weight" = Some match_key →
         ∃ fv qv,
           getitem match_key float_dict = Some fv
           ∧ getitem key quantized_dict = Some qv
           ∧ getitem key weight_dict = Some [("float", fv); ("quantized", qv)]).
Proof.
  destruct (compare_weights_loop float_dict quantized_dict)
    as (wd & Hrun & Hget).
  exists wd. split; [done|]. split.
  - intros key. rewrite elem_of_dict_keys, Hget. case_decide as Hd.
    + split; [done|]. intros _. destruct Hd. by apply weight_entry_is_Some.
    + simpl. split; [by intros [? ?] | done].
  - intros key m Hk Hm. specialize (Hget key).
    rewrite decide_True in Hget by (by rewrite Hm).
    destruct (weight_entry_is_Some float_dict quantized_dict key) as [e He];
      [done | by rewrite Hm |].
    rewrite He in Hget. unfold weight_entry in He. rewrite Hm in He. simpl in He.
    destruct (getitem m float_dict) as [fv|]; simpl in He; [|done].
    destruct (getitem key quantized_dict) as [qv|]; simpl in He; [|done].
    exists fv, qv. by simplify_eq.
Qed.

(** C9.  Every key of the comparison result has ["weight"] as its last
    dot-separated segment. *)
Theorem compare_weights_keys_weight float_dict quantized_dict weight_dict key :
  compare_weights float_dict quantized_dict = Some weight_dict →
  key ∈ dict_keys weight_dict →
  last_item (split_dot key) = Some "weight".
Proof.
  intros Hrun Hkey.
  destruct (compare_weights_loop float_dict quantized_dict)
    as (wd & Hwd & Hget).
  rewrite Hrun in Hwd. injection Hwd as <-.
  apply elem_of_dict_keys in Hkey as [entry Hentry].
  rewrite Hget in Hentry. case_decide as Hd; [|done].
  destruct Hd as [_ [m Hm]]. by apply find_match_suffix in Hm.
Qed.

End WeightProperties.

Lemma compare_weights_sample :
  compare_weights sample_float_store sample_quantized_store
    = Some sample_weight_dict.
Proof. reflexivity. Qed.

Lemma compare_weights_spec_witness :
  ∃ weight_dict,
    compare_weights sample_float_store sample_quantized_store = Some weight_dict
    ∧ getitem "q.weight" weight_dict = None
    ∧ getitem "fc.bias" weight_dict = None.
Proof.
  destruct (compare_weights_spec sample_float_store sample_quantized_store)
    as (wd & Hrun & Hkeys & _).
  exists wd. split; [exact Hrun|].
  split.
  - destruct (getitem "q.weight" wd) eqn:E; [|reflexivity].
    assert ("q.weight" ∈ dict_keys wd) as Hin
      by (apply elem_of_dict_keys; rewrite E; eexists; reflexivity).
    apply Hkeys in Hin as [_ [m Hm]]. vm_compute in Hm. discriminate.
  - destruct (getitem "fc.bias" wd) eqn:E; [|reflexivity].
    assert ("fc.bias" ∈ dict_keys wd) as Hin
      by (apply elem_of_dict_keys; rewrite E; eexists; reflexivity).
    apply Hkeys in Hin as [_ [m Hm]]. vm_compute in Hm. discriminate.
Defined.

Lemma compare_weights_keys_weight_witness :
  compare_weights sample_float_store sample_quantized_store
    = Some sample_weight_dict
  ∧ "conv.weight" ∈ dict_keys sample_weight_dict
  ∧ last_item (split_dot "conv.weight") = Some "weight".
Proof.
  assert (compare_weights sample_float_store sample_quantized_store
            = Some sample_weight_dict) as Hrun by reflexivity.
  assert ("conv.weight" ∈ dict_keys sample_weight_dict) as Hkey
    by (apply elem_of_dict_keys; eexists; reflexivity).
  split; [exact Hrun|]. split; [exact Hkey|].
  exact (compare_weights_keys_weight _ _ _ _ Hrun Hkey).
Defined.

(** ** Stat loggers *)

Section LoggerProperties.
Context {Slice : Type}.
Context (compatible : tensor Slice → tensor Slice → bool).
Abbreviation T := (tensor Slice).

Lemma accumulated_cons (acc : option T) (x : T) (xs : list T) :
  accumulated (Some (default [] acc ++ x)) xs = accumulated acc (x :: xs).
Proof.
  unfold accumulated, torch_cat_all. destruct xs as [|y ys]; simpl.
  - by rewrite app_nil_r.
  - by rewrite <- !app_assoc.
Qed.

(** A call on a logger that never recorded stores the value itself. *)
Lemma OutputLogger_forward_unset (stats : stats_record T) x :
  stats !! "tensor_val" = Some None →
  OutputLogger_forward compatible stats x
  = Some (x, <["tensor_val" := Some x]> stats).
Proof. intros Hs. unfold OutputLogger_forward. by rewrite Hs. Qed.

(** A later call asks the library for the concatenation. *)
Lemma OutputLogger_forward_slot (stats : stats_record T) x acc :
  stats !! "tensor_val" = Some (Some acc) →
  OutputLogger_forward compatible stats x
  = if compatible acc x
    then Some (x, <["tensor_val" := Some (acc ++ x)]> stats)
    else None.
Proof.
  intros Hs. unfold OutputLogger_forward, torch_cat. rewrite Hs. simpl.
  by destruct (compatible acc x).
Qed.

Lemma OutputLogger_run_slot (stats : stats_record T) xs acc :
  stats !! "tensor_val" = Some (Some acc) →
  OutputLogger_run compatible stats xs
  = if accepted compatible acc xs
    then Some (<["tensor_val" := Some (acc ++ torch_cat_all xs)]> stats)
    else None.
Proof.
  revert stats acc. induction xs as [|x xs IH]; intros stats acc Hs.
  - simpl. unfold torch_cat_all. simpl. by rewrite app_nil_r, insert_id.
  - unfold OutputLogger_run. cbn [for_each accepted].
    rewrite (OutputLogger_forward_slot _ _ _ Hs).
    destruct (compatible acc x); simpl; [|done].
    fold (OutputLogger_run compatible
            (<["tensor_val" := Some (acc ++ x)]> stats) xs).
    rewrite (IH _ (acc ++ x)) by apply lookup_insert_eq.
    destruct (accepted compatible (acc ++ x) xs); [|done].
    rewrite insert_insert_eq. unfold torch_cat_all. simpl.
    by rewrite <- app_assoc.
Qed.

Lemma ShadowLogger_forward_unset (stats : stats_record T) x y :
  stats !! "quantized" = Some None →
  stats !! "float" = Some None →
  ShadowLogger_forward compatible stats x y
  = Some (<["float" := Some y]> (<["quantized" := Some x]> stats)).
Proof.
  intros Hq Hf. unfold ShadowLogger_forward, detach. rewrite Hq. simpl.
  rewrite lookup_insert_ne by done. by rewrite Hf.
Qed.

Lemma ShadowLogger_forward_slots (stats : stats_record T) x y qacc facc :
  stats !! "quantized" = Some (Some qacc) →
  stats !! "float" = Some (Some facc) →
  ShadowLogger_forward compatible stats x y
  = if compatible qacc x && compatible facc y
    then Some (<["float" := Some (facc ++ y)]>
                 (<["quantized" := Some (qacc ++ x)]> stats))
    else None.
Proof.
  intros Hq Hf. unfold ShadowLogger_forward, detach, torch_cat.
  rewrite Hq. simpl. destruct (compatible qacc x); simpl; [|done].
  rewrite lookup_insert_ne by done. rewrite Hf. simpl.
  by destruct (compatible facc y).
Qed.

(** Two slots written one after the other, twice. *)
Lemma insert_two_slots (stats : stats_record T) (a b c d : option T) :
  <["float" := a]> (<["quantized" := b]>
    (<["float" := c]> (<["quantized" := d]> stats)))
  = <["float" := a]> (<["quantized" := b]> stats).
Proof.
  apply map_eq. intros k.
  destruct (decide (k = "float")) as [->|Hf]; [by rewrite !lookup_insert_eq|].
  rewrite !(lookup_insert_ne _ "float") by congruence.
  destruct (decide (k = "quantized")) as [->|Hq];
    [by rewrite !lookup_insert_eq|].
  by repeat (rewrite lookup_insert_ne by congruence).
Qed.

Lemma ShadowLogger_run_slots (stats : stats_record T) xys qacc facc :
  stats !! "quantized" = Some (Some qacc) →
  stats !! "float" = Some (Some facc) →
  ShadowLogger_run compatible stats xys
  = if accepted compatible qacc xys.*1 && accepted compatible facc xys.*2
    then Some (<["float" := Some (facc ++ torch_cat_all xys.*2)]>
                 (<["quantized" := Some (qacc ++ torch_cat_all xys.*1)]> stats))
    else None.
Proof.
  revert stats qacc facc.
  induction xys as [|[x y] xys IH]; intros stats qacc facc Hq Hf.
  - simpl. unfold torch_cat_all. simpl. rewrite !app_nil_r.
    rewrite (insert_id stats "quantized") by done. by rewrite insert_id.
  - unfold ShadowLogger_run. cbn [for_each accepted fmap list_fmap fst snd].
    rewrite (ShadowLogger_forward_slots _ _ _ _ _ Hq Hf).
    destruct (compatible qacc x); simpl; [|done].
    destruct (compatible facc y); simpl; [|by rewrite andb_false_r].
    fold (ShadowLogger_run compatible
            (<["float" := Some (facc ++ y)]>
               (<["quantized" := Some (qacc ++ x)]> stats)) xys).
    rewrite (IH _ (qacc ++ x) (facc ++ y)).
    + destruct (accepted compatible (qacc ++ x) xys.*1); simpl; [|done].
      destruct (accepted compatible (facc ++ y) xys.*2); simpl; [|done].
      rewrite insert_two_slots. unfold torch_cat_all. simpl.
      by rewrite <- !app_assoc.
    + rewrite lookup_insert_ne by done. apply lookup_insert_eq.
    + apply lookup_insert_eq.
Qed.

(** C6.  A sequence of calls on a fresh logger never fails for a missing
    slot: it fails exactly when the library rejects one of the
    concatenations, the accumulated value with the next one.  With no call
    the logger is as [__init__] left it, every slot [None].  Otherwise, all
    concatenations being accepted, the ["tensor_val"] slot of an
    [OutputLogger] holds the slices of the recorded values in call order,
    and the ["quantized"] and ["float"] slots of a [ShadowLogger] hold
    those of the first and of the second arguments; nothing else is
    stored. *)
Theorem logger_accumulation (xs : list T) (xys : list (T * T)) :
  OutputLogger_run compatible OutputLogger_init xs
  = match xs with
    | [] => Some OutputLogger_init
    | x :: rest =>
        if accepted compatible x rest
        then Some (<["tensor_val" := Some (torch_cat_all xs)]>
                     OutputLogger_init)
        else None
    end
  ∧ ShadowLogger_run compatible ShadowLogger_init xys
    = match xys with
      | [] => Some ShadowLogger_init
      | (x, y) :: rest =>
          if accepted compatible x rest.*1 && accepted compatible y rest.*2
          then Some (<["float" := Some (torch_cat_all xys.*2)]>
                       (<["quantized" := Some (torch_cat_all xys.*1)]>
                          ShadowLogger_init))
          else None
      end.
Proof.
  split.
  - destruct xs as [|x rest]; [done|].
    unfold OutputLogger_run. cbn [for_each].
    rewrite OutputLogger_forward_unset by done. simpl.
    fold (OutputLogger_run compatible
            (<["tensor_val" := Some x]> OutputLogger_init) rest).
    rewrite (OutputLogger_run_slot _ _ x) by apply lookup_insert_eq.
    destruct (accepted compatible x rest); [|done].
    by rewrite insert_insert_eq.
  - destruct xys as [|[x y] rest]; [done|].
    unfold ShadowLogger_run. cbn [for_each fst snd].
    rewrite ShadowLogger_forward_unset by done. simpl.
    fold (ShadowLogger_run compatible
            (<["float" := Some y]>
               (<["quantized" := Some x]> ShadowLogger_init)) rest).
    rewrite (ShadowLogger_run_slots _ _ x y).
    + destruct (accepted compatible x rest.*1 && accepted compatible y rest.*2);
        [|done].
      by rewrite insert_two_slots.
    + rewrite lookup_insert_ne by done. apply lookup_insert_eq.
    + apply lookup_insert_eq.
Qed.

(** C8.  Whatever the logger has recorded before, a call of
    [OutputLogger.forward] that returns gives back its input.  The call
    returns on a logger that never recorded, and on one that did whenever
    the library accepts the concatenation of the recorded value with the
    input. *)
Theorem OutputLogger_forward_identity (stats : stats_record T) (x : T) :
  (∀ r stats', OutputLogger_forward compatible stats x = Some (r, stats') →
               r = x)
  ∧ (stats !! "tensor_val" = Some None →
     OutputLogger_forward compatible stats x
     = Some (x, <["tensor_val" := Some x]> stats))
  ∧ (∀ acc, stats !! "tensor_val" = Some (Some acc) →
            compatible acc x = true →
            OutputLogger_forward compatible stats x
            = Some (x, <["tensor_val" := Some (acc ++ x)]> stats)).
Proof.
  split; [|split].
  - intros r stats'. unfold OutputLogger_forward.
    destruct (stats !! "tensor_val") as [[acc|]|]; simpl; [| |done].
    + destruct (torch_cat compatible acc x); simpl; [|done].
      by intros [= <- _].
    + by intros [= <- _].
  - apply OutputLogger_forward_unset.
  - intros acc Hs Hc. by rewrite (OutputLogger_forward_slot _ _ _ Hs), Hc.
Qed.

End LoggerProperties.

Lemma logger_accumulation_witness :
  ∃ stats : stats_record (tensor nat),
    OutputLogger_run cat_1d OutputLogger_init [[1; 2]; [3]; [4; 5]] = Some stats
    ∧ stats !! "tensor_val" = Some (Some [1; 2; 3; 4; 5]).
Proof.
  destruct (logger_accumulation cat_1d [[1; 2]; [3]; [4; 5]] []) as [Hrun _].
  cbn [accepted cat_1d andb] in Hrun.
  eexists. split; [exact Hrun|]. apply lookup_insert_eq.
Defined.

(** The library rejects a one-row tensor of width four after a two-row
    tensor of width three: the second call raises. *)
Lemma logger_accumulation_claim_fails :
  OutputLogger_run same_width OutputLogger_init
    [[[1; 2; 3]; [4; 5; 6]]; [[7; 8; 9; 10]]] = None
  ∧ ShadowLogger_run same_width ShadowLogger_init
      [([[1; 2; 3]], [[1; 2; 3]]); ([[4; 5; 6; 7]], [[4; 5; 6]])] = None.
Proof. split; reflexivity. Qed.

Lemma OutputLogger_forward_identity_witness :
  OutputLogger_forward cat_1d (<["tensor_val" := Some [7]]> OutputLogger_init)
    [8; 9]
  = Some ([8; 9],
          <["tensor_val" := Some [7; 8; 9]]>
            (<["tensor_val" := Some [7]]> OutputLogger_init)).
Proof.
  destruct (OutputLogger_forward_identity cat_1d
              (<["tensor_val" := Some [7]]> OutputLogger_init) [8; 9])
    as (_ & _ & Hreturns).
  apply (Hreturns [7]).
  - apply lookup_insert_eq.
  - reflexivity.
Defined.

(** ** The Shadow wrapper *)

Section ShadowProperties.
Context {T Scalar : Type}.
Context (dequantize : T → option T).
Context {Logger : logger_impl T}.
Implicit Types (self : @Shadow T Scalar Logger) (i : invocation T Scalar).

Lemma log_and_return_inv self output shadow_output out self' :
  log_and_return self output shadow_output = Some (out, self') →
  out = output
  ∧ orig_module self' = orig_module self
  ∧ shadow_module self' = shadow_module self
  ∧ logger_call Logger (logger self) output shadow_output = Some (logger self').
Proof.
  unfold log_and_return.
  destruct (logger_call _ _ _ _) as [lg|]; simpl; [|done].
  by intros [= <- <-].
Qed.

(** Every method of the wrapper has the same shape: the quantized module
    first, then the float module on de-quantized operands, then the
    logger. *)
Lemma Shadow_invoke_unfold self i :
  Shadow_invoke dequantize self i =
  output ← invoke (orig_module self) i;
  i' ← dequantize_operands dequantize i;
  shadow_output ← invoke (shadow_module self) i';
  log_and_return self output shadow_output.
Proof.
  destruct i; simpl;
    unfold Shadow_forward, Shadow_add, Shadow_add_scalar, Shadow_mul,
      Shadow_mul_scalar, Shadow_cat, Shadow_add_relu;
    repeat match goal with
      | |- context [mbind _ ?o] =>
          lazymatch o with
          | mbind _ _ => fail
          | _ => destruct o; simpl; try done
          end
      | |- context [fmap _ ?o] => destruct o; simpl; try done
      end.
Qed.

(** C1.  Whatever the operator variant and the operands, a value that the
    Shadow wrapper returns is the value its quantized module returns for
    the same operands, and the call leaves the two wrapped modules in
    place; the wrapper does return that value whenever the quantized
    module, the de-quantization, the float module and the logger all
    return. *)
Theorem Shadow_transparency self i :
  (∀ out self',
     Shadow_invoke dequantize self i = Some (out, self') →
     invoke (orig_module self) i = Some out
     ∧ orig_module self' = orig_module self
     ∧ shadow_module self' = shadow_module self)
  ∧ (∀ out i' shadow_out lg,
       invoke (orig_module self) i = Some out →
       dequantize_operands dequantize i = Some i' →
       invoke (shadow_module self) i' = Some shadow_out →
       logger_call Logger (logger self) out shadow_out = Some lg →
       Shadow_invoke dequantize self i
       = Some (out, MkShadow (orig_module self) (shadow_module self) lg)).
Proof.
  rewrite Shadow_invoke_unfold. split.
  - intros out self'.
    destruct (invoke (orig_module self) i) as [output|]; simpl; [|done].
    destruct (dequantize_operands dequantize i) as [i'|]; simpl; [|done].
    destruct (invoke (shadow_module self) i') as [so|]; simpl; [|done].
    intros (-> & ? & ? & _)%log_and_return_inv. by repeat split.
  - intros out i' so lg -> -> Hso Hlg. simpl. rewrite Hso. simpl.
    unfold log_and_return. by rewrite Hlg.
Qed.

End ShadowProperties.

Lemma Shadow_transparency_witness :
  ∃ self',
    Shadow_invoke sample_dequantize sample_Shadow (op_add_scalar [1; 2] 5)%Z
      = Some (([6; 7])%Z, self')
    ∧ logger self' !! "float" = Some (Some ([12; 14])%Z).
Proof.
  destruct (Shadow_transparency sample_dequantize sample_Shadow
              (op_add_scalar [1; 2] 5)%Z) as [_ Hret].
  eexists. split.
  - eapply Hret; reflexivity.
  - reflexivity.
Defined.

(** ** Activation matching *)

Lemma sorted_reverse_elem_of keys k : k ∈ sorted_reverse keys ↔ k ∈ keys.
Proof. unfold sorted_reverse. by rewrite merge_sort_Permutation. Qed.

Lemma string_ge_total : Total string_ge.
Proof.
  intros a b. unfold string_ge.
  destruct (String.leb_total a b) as [H|H]; [by right | by left].
Qed.

Lemma string_compare_trans a b c :
  String.compare a b ≠ Gt → String.compare b c ≠ Gt →
  String.compare a c ≠ Gt.
Proof.
  revert b c. induction a as [|x a IH]; intros [|y b] [|z c]; simpl;
    try congruence.
  destruct (Ascii.compare x y) eqn:Hxy; [| |congruence].
  - apply Ascii.compare_eq_iff in Hxy as ->.
    destruct (Ascii.compare y z); [apply IH | congruence | congruence].
  - intros _. destruct (Ascii.compare y z) eqn:Hyz; [| |congruence].
    + apply Ascii.compare_eq_iff in Hyz as <-. rewrite Hxy. congruence.
    + intros _. unfold Ascii.compare in *.
      rewrite N.compare_lt_iff in Hxy, Hyz.
      assert (N.compare (N_of_ascii x) (N_of_ascii z) = Lt) as ->
        by (apply N.compare_lt_iff; by etrans).
      congruence.
Qed.

Lemma string_ge_trans : Transitive string_ge.
Proof.
  intros a b c. unfold string_ge, String.leb. intros Hab Hbc.
  pose proof (string_compare_trans c b a) as Ht.
  destruct (String.compare c b); destruct (String.compare b a);
    destruct (String.compare c a); try done; destruct Ht; done.
Qed.

Lemma string_ge_antisym a b : string_ge a b → string_ge b a → a = b.
Proof. unfold string_ge. intros Hab Hba. by apply String.leb_antisym. Qed.

(** The candidates are tried in descending order. *)
Lemma sorted_reverse_sorted keys : Sorted string_ge (sorted_reverse keys).
Proof. apply (@Sorted_merge_sort _ string_ge _ string_ge_total). Qed.

(** Hence the first candidate that qualifies is the greatest one. *)
Lemma find_match_sorted_greatest keys key postfix m :
  _find_match (sorted_reverse keys) key postfix = Some m ↔
  last_item (split_dot key) = Some postfix
  ∧ m ∈ keys ∧ qualifies key m
  ∧ ∀ c, c ∈ keys → qualifies key c → string_ge m c.
Proof.
  assert (∀ m', _find_match (sorted_reverse keys) key postfix = Some m' →
            m' ∈ keys ∧ qualifies key m'
            ∧ ∀ c, c ∈ keys → qualifies key c → string_ge m' c) as Hfwd.
  { intros m' Hm. unfold _find_match in Hm. case_decide; [|done].
    apply find_match_loop_Some in Hm as (before & after & Hl & Hq & Hbefore).
    assert (m' ∈ keys) as Hin.
    { apply sorted_reverse_elem_of. rewrite Hl, elem_of_app, elem_of_cons.
      auto. }
    split; [done|]. split; [done|]. intros c Hc Hqc.
    apply sorted_reverse_elem_of in Hc. rewrite Hl in Hc.
    pose proof (sorted_reverse_sorted keys) as Hs. rewrite Hl in Hs.
    apply (@Sorted_StronglySorted _ string_ge string_ge_trans) in Hs.
    apply StronglySorted_app in Hs as (_ & _ & Hs).
    apply StronglySorted_cons in Hs as [Hafter _].
    apply elem_of_app in Hc as [Hc|Hc].
    - rewrite Forall_forall in Hbefore. by destruct (Hbefore c Hc).
    - apply elem_of_cons in Hc as [->|Hc].
      + by destruct (string_ge_total m' m').
      + rewrite Forall_forall in Hafter. by apply Hafter. }
  split.
  - intros Hm. split; [by eapply find_match_suffix|]. by apply Hfwd.
  - intros (Hlast & Hin & Hq & Hmax).
    destruct (_find_match (sorted_reverse keys) key postfix) as [m'|] eqn:Hm.
    + destruct (Hfwd m' eq_refl) as (Hin' & Hq' & Hmax').
      f_equal. apply string_ge_antisym; [by apply Hmax' | by apply Hmax].
    + unfold _find_match in Hm. rewrite decide_True in Hm by done.
      apply find_match_loop_None in Hm. rewrite Forall_forall in Hm.
      destruct (Hm m); [by apply sorted_reverse_elem_of | done].
Qed.

(** A loop in which one iteration raises, raises. *)
Lemma for_each_fails {S A} (body : S → A → option S) items x s :
  x ∈ items → (∀ s, body s x = None) → for_each body items s = None.
Proof.
  intros Hin Hx. revert s. induction items as [|y items IH]; intros s.
  - by apply elem_of_nil in Hin.
  - simpl. apply elem_of_cons in Hin as [<-|Hin]; [by rewrite Hx|].
    destruct (body s y); simpl; [by apply IH | done].
Qed.

Section ActivationProperties.
Context {T : Type}.
Implicit Types (float_dict quantized_dict : odict (stats_record T)).

Lemma matching_body_entry float_dict quantized_dict act_dict key :
  matching_body float_dict quantized_dict act_dict key =
  if decide (is_Some (_find_match (sorted_reverse (dict_keys float_dict))
                        key "stats"))
  then entry ← activation_entry float_dict quantized_dict key;
       Some (setitem key entry act_dict)
  else Some act_dict.
Proof.
  unfold matching_body, activation_entry.
  destruct (_find_match _ key "stats") as [m|]; simpl; [|done].
  destruct (getitem m float_dict) as [frec|]; simpl; [|done].
  destruct (frec !! "tensor_val") as [fv|]; simpl; [|done].
  rewrite getitem_setitem_eq; simpl. rewrite setitem_setitem.
  destruct (getitem key quantized_dict) as [qrec|]; simpl; [|done].
  destruct (qrec !! "tensor_val") as [qv|]; simpl; [|done].
  rewrite getitem_setitem_eq; simpl. by rewrite setitem_setitem.
Qed.

Lemma greatest_match_find float_dict key m :
  _find_match (sorted_reverse (dict_keys float_dict)) key "stats" = Some m
  ↔ greatest_match float_dict key m.
Proof. apply find_match_sorted_greatest. Qed.

(** The entry of a matched key, read from the two records. *)
Lemma activation_entry_records float_dict quantized_dict key m frec qrec :
  matched_records float_dict quantized_dict key m frec qrec →
  activation_entry float_dict quantized_dict key
  = fv ← frec !! "tensor_val"; qv ← qrec !! "tensor_val";
    Some [("float", fv); ("quantized", qv)].
Proof.
  intros (_ & Hm%greatest_match_find & Hf & Hq). unfold activation_entry.
  rewrite Hm. simpl. rewrite Hf. simpl.
  destruct (frec !! "tensor_val"); simpl; [|done]. by rewrite Hq.
Qed.

(** A quantized key that has a match has its two records. *)
Lemma matched_records_exist float_dict quantized_dict key :
  key ∈ dict_keys quantized_dict →
  is_Some (_find_match (sorted_reverse (dict_keys float_dict)) key "stats") →
  ∃ m frec qrec, matched_records float_dict quantized_dict key m frec qrec.
Proof.
  intros Hk [m Hm]. apply greatest_match_find in Hm.
  pose proof Hm as (_ & [frec Hf]%elem_of_dict_keys & _).
  pose proof Hk as [qrec Hq]%elem_of_dict_keys.
  by exists m, frec, qrec.
Qed.

(** C5.  The float path that the matcher returns for a quantized path,
    the float paths being tried in reverse-sorted order, is the greatest
    float path that qualifies.  When the records of every matched pair
    have the ["tensor_val"] slot, the matching returns a dictionary with
    one entry per quantized path that has a match and no entry for the
    others; the entry holds under ["float"] what the slot of the matched
    float record holds and under ["quantized"] what the slot of the
    quantized record holds, which is [None] for a logger that recorded
    nothing.  When a record of a matched pair lacks the slot, the matching
    raises. *)
Theorem matching_activations_spec float_dict quantized_dict :
  (∀ key m,
     _find_match (sorted_reverse (dict_keys float_dict)) key "stats" = Some m
     ↔ greatest_match float_dict key m)
  ∧ ((∀ key m frec qrec,
        matched_records float_dict quantized_dict key m frec qrec →
        is_Some (frec !! "tensor_val") ∧ is_Some (qrec !! "tensor_val")) →
     ∃ act_dict,
       match_activations float_dict quantized_dict = Some act_dict
       ∧ (∀ key, key ∈ dict_keys act_dict ↔
            key ∈ dict_keys quantized_dict
            ∧ ∃ m, greatest_match float_dict key m)
       ∧ (∀ key m frec qrec,
            matched_records float_dict quantized_dict key m frec qrec →
            ∃ fv qv,
              frec !! "tensor_val" = Some fv
              ∧ qrec !! "tensor_val" = Some qv
              ∧ getitem key act_dict
                = Some [("float", fv); ("quantized", qv)]))
  ∧ (∀ key m frec qrec,
       matched_records float_dict quantized_dict key m frec qrec →
       frec !! "tensor_val" = None ∨ qrec !! "tensor_val" = None →
       match_activations float_dict quantized_dict = None).
Proof.
  split; [|split].
  - intros key m. apply greatest_match_find.
  - intros Hslots.
    assert (∀ key, key ∈ dict_keys quantized_dict →
              is_Some (_find_match (sorted_reverse (dict_keys float_dict))
                         key "stats") →
              is_Some (activation_entry float_dict quantized_dict key))
      as Hentry.
    { intros key Hk Hm.
      destruct (matched_records_exist _ _ _ Hk Hm) as (m & frec & qrec & Hrec).
      rewrite (activation_entry_records _ _ _ _ _ _ Hrec).
      destruct (Hslots _ _ _ _ Hrec) as [[fv ->] [qv ->]]. by eexists. }
    destruct (for_each_setitem
                (λ key, is_Some (_find_match
                                   (sorted_reverse (dict_keys float_dict))
                                   key "stats"))
                (activation_entry float_dict quantized_dict)
                (dict_keys quantized_dict) [] Hentry) as (ad & Hrun & Hget).
    exists ad. split; [|split].
    + unfold match_activations. rewrite <- Hrun. apply for_each_ext.
      apply matching_body_entry.
    + intros key. rewrite elem_of_dict_keys, Hget. case_decide as Hd.
      * split.
        -- intros _. destruct Hd as [Hk [m Hm]]. split; [done|].
           exists m. by apply greatest_match_find.
        -- intros _. destruct Hd. by apply Hentry.
      * simpl. split; [by intros [? ?]|].
        intros [Hk [m Hm%greatest_match_find]]. destruct Hd.
        split; [done|]. by eexists.
    + intros key m frec qrec Hrec.
      destruct (Hslots _ _ _ _ Hrec) as [[fv Hfv] [qv Hqv]].
      exists fv, qv. split; [done|]. split; [done|].
      rewrite Hget, (activation_entry_records _ _ _ _ _ _ Hrec), Hfv, Hqv.
      destruct Hrec as (Hk & Hm%greatest_match_find & _).
      rewrite decide_True; [done|]. split; [done|]. by eexists.
  - intros key m frec qrec Hrec Hnone. unfold match_activations.
    pose proof Hrec as (Hk & Hm%greatest_match_find & _).
    apply (for_each_fails _ _ key); [done|].
    intros act_dict. rewrite matching_body_entry.
    rewrite decide_True by (by eexists).
    rewrite (activation_entry_records _ _ _ _ _ _ Hrec).
    destruct Hnone as [-> | ->]; [done|].
    by destruct (frec !! "tensor_val").
Qed.

End ActivationProperties.

Lemma sample_stats_have_tensor_val key m frec qrec :
  matched_records sample_float_stats sample_quantized_stats key m frec qrec →
  is_Some (frec !! "tensor_val") ∧ is_Some (qrec !! "tensor_val").
Proof.
  intros (_ & _ & Hf & Hq).
  apply getitem_Some_elem_of in Hf. apply getitem_Some_elem_of in Hq.
  unfold sample_float_stats in Hf. unfold sample_quantized_stats in Hq.
  rewrite !elem_of_cons, elem_of_nil in Hf.
  rewrite !elem_of_cons, elem_of_nil in Hq. split.
  - destruct Hf as [[= _ ->] | [[= _ ->] | []]];
      eexists; apply lookup_singleton_eq.
  - destruct Hq as [[= _ ->] | [[= _ ->] | [[= _ ->] | []]]];
      eexists; apply lookup_singleton_eq.
Qed.

Lemma matching_activations_spec_witness :
  ∃ act_dict,
    match_activations sample_float_stats sample_quantized_stats = Some act_dict
    ∧ getitem "conv.stats" act_dict
      = Some [("float", Some 1); ("quantized", Some 10)]
    ∧ getitem "quant.stats" act_dict = None.
Proof.
  destruct (matching_activations_spec sample_float_stats sample_quantized_stats)
    as (Hfind & Hreturns & _).
  destruct (Hreturns sample_stats_have_tensor_val) as (ad & Hrun & Hkeys & Hval).
  exists ad. split; [exact Hrun|]. split.
  - destruct (Hval "conv.stats" "conv.module.stats"
                {["tensor_val" := Some 1]} {["tensor_val" := Some 10]})
      as (fv & qv & Hfv & Hqv & Hentry).
    + split; [|split; [|split]].
      * apply elem_of_dict_keys. eexists. reflexivity.
      * apply Hfind. reflexivity.
      * reflexivity.
      * reflexivity.
    + rewrite lookup_singleton_eq in Hfv, Hqv.
      injection Hfv as <-. injection Hqv as <-. exact Hentry.
  - destruct (getitem "quant.stats" ad) eqn:E; [|reflexivity].
    assert ("quant.stats" ∈ dict_keys ad) as Hin
      by (apply elem_of_dict_keys; rewrite E; eexists; reflexivity).
    apply Hkeys in Hin as [_ [m Hm]]. apply Hfind in Hm.
    vm_compute in Hm. discriminate.
Defined.

(** A logger that was attached and never called holds [None]: the entry
    is emitted with [None] on that side. *)
Lemma matching_activations_claim_fails :
  match_activations
    [("a.stats", @OutputLogger_init nat)]
    [("a.stats", <["tensor_val" := Some [1]]> OutputLogger_init)]
  = Some [("a.stats", [("float", None); ("quantized", Some [1])])].
Proof. reflexivity. Qed.

(** ** Dotted paths *)

Lemma append_cons (x : ascii) (a b : string) :
  String x a +:+ b = String x (a +:+ b).
Proof. reflexivity. Qed.

Lemma append_assoc (a b c : string) : (a +:+ b) +:+ c = a +:+ (b +:+ c).
Proof.
  induction a as [|x a IH]; [done|]. rewrite !append_cons. by f_equal.
Qed.

Lemma append_eq_empty (a b : string) : a +:+ b = "" → a = "".
Proof. by destruct a. Qed.

(** Splitting undoes joining, for segments without dots. *)
Lemma split_dot_append s r :
  split_dot s = [s] → split_dot (s +:+ "." +:+ r) = s :: split_dot r.
Proof.
  induction s as [|c s IH]; [done|].
  rewrite append_cons. simpl.
  destruct (Ascii.eqb c ".") eqn:Hc; [done|].
  destruct (split_dot s) as [|seg segs] eqn:Hs.
  - by apply split_dot_nonempty in Hs.
  - intros [= -> ->]. by rewrite IH.
Qed.

Lemma split_dot_join_dot (l : list string) :
  l ≠ [] → Forall (λ s, split_dot s = [s]) l → split_dot (join_dot l) = l.
Proof.
  induction l as [|s l IH]; [done|]. intros _ [Hs Hl]%Forall_cons.
  destruct l as [|s' l]; [done|].
  change (join_dot (s :: s' :: l)) with (s +:+ "." +:+ join_dot (s' :: l)).
  rewrite split_dot_append by done. by rewrite IH.
Qed.

Lemma join_dot_inj (l1 l2 : list string) :
  l1 ≠ [] → l2 ≠ [] →
  Forall (λ s, split_dot s = [s]) l1 → Forall (λ s, split_dot s = [s]) l2 →
  join_dot l1 = join_dot l2 → l1 = l2.
Proof.
  intros ? ? H1 H2 Heq.
  rewrite <- (split_dot_join_dot l1), <- (split_dot_join_dot l2) by done.
  by rewrite Heq.
Qed.

Lemma join_dot_snoc (l : list string) (s : string) :
  l ≠ [] → join_dot (l ++ [s]) = join_dot l +:+ "." +:+ s.
Proof.
  induction l as [|a l IH]; [done|]. intros _.
  destruct l as [|b l]; [done|].
  change (join_dot ((a :: b :: l) ++ [s]))
    with (a +:+ "." +:+ join_dot ((b :: l) ++ [s])).
  rewrite IH by done.
  change (join_dot (a :: b :: l)) with (a +:+ "." +:+ join_dot (b :: l)).
  by rewrite !append_assoc.
Qed.

Lemma join_dot_empty (l : list string) :
  Forall valid_name l → join_dot l = "" → l = [].
Proof.
  destruct l as [|a l]; [done|]. intros [[Ha _] _]%Forall_cons Hj.
  destruct l as [|b l]; [done|].
  change (join_dot (a :: b :: l)) with (a +:+ "." +:+ join_dot (b :: l)) in Hj.
  by apply append_eq_empty in Hj.
Qed.

Lemma valid_name_stats : split_dot "stats" = ["stats"].
Proof. reflexivity. Qed.

(** The strings the helper computes, in terms of paths. *)
Lemma module_prefix_path (path : list string) (name : string) :
  Forall valid_name path →
  module_prefix (join_dot path) name = join_dot (path ++ [name]).
Proof.
  intros Hp. unfold module_prefix, get_prefix.
  destruct path as [|a l]; [done|].
  assert (join_dot (a :: l) ≠ "") as Hne
    by (intros H; by apply join_dot_empty in H).
  rewrite decide_True, decide_False by done.
  rewrite join_dot_snoc by done. by rewrite append_assoc.
Qed.

Lemma stats_key_path (path : list string) :
  Forall valid_name path →
  get_prefix (join_dot path) +:+ "stats" = stats_key path.
Proof.
  intros Hp. unfold stats_key, get_prefix.
  destruct path as [|a l]; [done|].
  assert (join_dot (a :: l) ≠ "") as Hne
    by (intros H; by apply join_dot_empty in H).
  rewrite decide_False by done.
  rewrite join_dot_snoc by done. by rewrite append_assoc.
Qed.

Lemma stats_key_inj (p1 p2 : list string) :
  Forall valid_name p1 → Forall valid_name p2 →
  stats_key p1 = stats_key p2 → p1 = p2.
Proof.
  intros H1 H2 Heq. unfold stats_key in Heq.
  apply join_dot_inj in Heq.
  - by apply app_inj_tail in Heq as [? _].
  - by destruct p1.
  - by destruct p2.
  - apply Forall_app. split; [|by repeat constructor].
    eapply Forall_impl; [exact H1|]. by intros ? [_ ?].
  - apply Forall_app. split; [|by repeat constructor].
    eapply Forall_impl; [exact H2|]. by intros ? [_ ?].
Qed.

(** ** Stat collection *)

Section CollectionProperties.
Context {T : Type}.
Implicit Types (t node : module_tree T) (td : odict (stats_record T)).
Implicit Types (cs : list (string * module_tree T)) (L : logger_class).
Implicit Types (path sub : list string).

(** Induction on module trees, with the hypothesis for every child. *)
Lemma module_tree_nested_ind (P : module_tree T → Prop) :
  (∀ self cs, Forall (λ nc, P nc.2) cs → P (ModuleNode self cs)) →
  ∀ t, P t.
Proof.
  intros Hnode. fix IH 1. intros [self cs]. apply Hnode.
  induction cs as [|[name child] cs IHcs]; constructor; [apply IH | apply IHcs].
Qed.

Lemma helper_unfold self cs td L prefix :
  _get_logger_dict_helper (ModuleNode self cs) td L prefix
  = descend L prefix cs (record_logger cs td L prefix).
Proof.
  simpl. generalize (record_logger cs td L prefix). unfold descend.
  induction cs as [|[name child] cs IH]; intros td'; simpl; [done | apply IH].
Qed.

Lemma record_logger_first cs td L prefix :
  record_logger cs td L prefix
  = match first_logger cs L with
    | Some stats => setitem (get_prefix prefix +:+ "stats") stats td
    | None => td
    end.
Proof.
  induction cs as [|[name child] cs IH]; simpl; [done|].
  by destruct (logger_stats child L).
Qed.

Lemma dict_keys_cons {V} (k : string) (v : V) (d : odict V) :
  dict_keys ((k, v) :: d) = k :: dict_keys d.
Proof. reflexivity. Qed.

Lemma well_named_node self cs :
  well_named (ModuleNode self cs) ↔
  NoDup (dict_keys cs) ∧ Forall valid_name (dict_keys cs)
  ∧ Forall (λ nc, well_named nc.2) cs.
Proof.
  simpl. do 2 apply and_iff_compat_l.
  induction cs as [|[name child] cs IH]; simpl.
  - split; [constructor | done].
  - rewrite Forall_cons, IH. done.
Qed.

Lemma getitem_valid_name {V} (name : string) (d : odict V) v :
  Forall valid_name (dict_keys d) → getitem name d = Some v → valid_name name.
Proof.
  intros Hall Hget. eapply Forall_forall; [exact Hall|].
  apply elem_of_dict_keys. by eexists.
Qed.

Lemma walk_well_named t sub node :
  well_named t → walk t sub = Some node →
  Forall valid_name sub ∧ well_named node.
Proof.
  revert t. induction sub as [|name sub IH]; intros [self cs] Hwn; simpl.
  - intros [= <-]. by split; [constructor|].
  - destruct (getitem name cs) as [child|] eqn:Hc; simpl; [|done].
    apply well_named_node in Hwn as (_ & Hvalid & Hcs).
    intros Hwalk. apply IH in Hwalk as [Hsub Hnode].
    + split; [|done]. constructor; [|done]. by eapply getitem_valid_name.
    + apply getitem_Some_elem_of in Hc.
      by apply (proj1 (Forall_forall _ _) Hcs (name, child)).
Qed.

(** *** Frame: the helper writes only keys of the paths below its node *)

Lemma descend_frame L cs td path key :
  Forall (λ nc, helper_frame L nc.2) cs →
  Forall valid_name (dict_keys cs) → Forall (λ nc, well_named nc.2) cs →
  Forall valid_name path →
  (∀ name sub, name ∈ dict_keys cs → Forall valid_name sub →
               key ≠ stats_key (path ++ name :: sub)) →
  getitem key (descend L (join_dot path) cs td) = getitem key td.
Proof.
  intros Hframe Hvalid Hwn Hpath. revert td.
  induction cs as [|[name child] cs IH]; intros td Hkey; [done|].
  rewrite dict_keys_cons in Hvalid, Hkey.
  apply Forall_cons in Hframe as [Hchild Hframe].
  apply Forall_cons in Hvalid as [Hname Hvalid].
  apply Forall_cons in Hwn as [Hwchild Hwn].
  simpl in Hchild, Hwchild. unfold helper_frame in Hchild.
  change (descend L (join_dot path) ((name, child) :: cs) td)
    with (descend L (join_dot path) cs
            (_get_logger_dict_helper child td L
               (module_prefix (join_dot path) name))).
  rewrite IH; [|done..|].
  - rewrite module_prefix_path by done. apply Hchild; [done| |].
    + apply Forall_app. by split; [|constructor].
    + intros sub Hsub. rewrite <- app_assoc. apply Hkey; [by left | done].
  - intros name' sub Hin. apply Hkey. by right.
Qed.

Lemma helper_frame_all L t : helper_frame L t.
Proof.
  induction t as [self cs IH] using module_tree_nested_ind.
  intros td path key Hwn Hpath Hkey.
  apply well_named_node in Hwn as (Hnd & Hvalid & Hcs).
  rewrite helper_unfold, descend_frame; [|done..|].
  - rewrite record_logger_first. destruct (first_logger cs L); [|done].
    rewrite stats_key_path by done. apply getitem_setitem_ne.
    specialize (Hkey [] (Forall_nil_2 _)). rewrite app_nil_r in Hkey. done.
  - intros name sub Hin Hsub. apply Hkey. constructor; [|done].
    by apply (proj1 (Forall_forall _ _) Hvalid).
Qed.

(** *** Hit: the logger of every node is recorded under the node's path *)

Lemma descend_hit L cs td path name child sub node r :
  Forall (λ nc, helper_hit L nc.2) cs →
  NoDup (dict_keys cs) → Forall valid_name (dict_keys cs) →
  Forall (λ nc, well_named nc.2) cs → Forall valid_name path →
  getitem name cs = Some child → walk child sub = Some node →
  first_logger (named_children_of node) L = Some r →
  getitem (stats_key (path ++ name :: sub))
    (descend L (join_dot path) cs td) = Some r.
Proof.
  intros Hhit Hnd Hvalid Hwn Hpath. revert td.
  induction cs as [|[name0 child0] cs IH]; intros td Hget Hwalk Hr; [done|].
  rewrite dict_keys_cons in Hnd, Hvalid.
  apply Forall_cons in Hhit as [Hchild Hhit].
  apply NoDup_cons in Hnd as [Hfresh Hnd].
  apply Forall_cons in Hvalid as [Hname Hvalid].
  apply Forall_cons in Hwn as [Hwchild Hwn].
  simpl in Hchild, Hwchild. unfold helper_hit in Hchild.
  change (descend L (join_dot path) ((name0, child0) :: cs) td)
    with (descend L (join_dot path) cs
            (_get_logger_dict_helper child0 td L
               (module_prefix (join_dot path) name0))).
  simpl in Hget. destruct (decide (name0 = name)) as [->|Hne].
  - injection Hget as ->.
    destruct (walk_well_named _ _ _ Hwchild Hwalk) as [Hsub _].
    rewrite descend_frame; [|by apply Forall_forall; intros; apply helper_frame_all|done..|].
    + rewrite module_prefix_path by done.
      replace (path ++ name :: sub) with ((path ++ [name]) ++ sub)
        by (by rewrite <- app_assoc).
      apply (Hchild td (path ++ [name]) sub node r); [done| |done..].
      apply Forall_app. by split; [|constructor].
    + intros name' sub' Hin Hsub' Heq. apply stats_key_inj in Heq.
      * apply app_inv_head in Heq. injection Heq as -> _. done.
      * apply Forall_app. split; [done|]. by constructor.
      * apply Forall_app. split; [done|]. constructor; [|done].
        by apply (proj1 (Forall_forall _ _) Hvalid).
  - by apply IH.
Qed.

Lemma helper_hit_all L t : helper_hit L t.
Proof.
  induction t as [self cs IH] using module_tree_nested_ind.
  intros td path sub node r Hwn Hpath Hwalk Hr.
  apply well_named_node in Hwn as (Hnd & Hvalid & Hcs).
  rewrite helper_unfold. destruct sub as [|name sub]; simpl in Hwalk.
  - injection Hwalk as <-. simpl in Hr.
    rewrite descend_frame;
      [|by apply Forall_forall; intros; apply helper_frame_all|done..|].
    + rewrite record_logger_first, Hr, stats_key_path, app_nil_r by done.
      apply getitem_setitem_eq.
    + intros name sub Hin Hsub Heq. apply stats_key_inj in Heq.
      * by apply app_inv_head in Heq.
      * apply Forall_app. by split.
      * apply Forall_app. split; [done|]. constructor; [|done].
        by apply (proj1 (Forall_forall _ _) Hvalid).
  - destruct (getitem name cs) as [child|] eqn:Hc; simpl in Hwalk; [|done].
    by eapply descend_hit.
Qed.

(** *** Only: every recorded entry is the logger of some node *)

Lemma descend_only L cs td path key r :
  Forall (λ nc, helper_only L nc.2) cs →
  NoDup (dict_keys cs) → Forall valid_name (dict_keys cs) →
  Forall (λ nc, well_named nc.2) cs → Forall valid_name path →
  getitem key (descend L (join_dot path) cs td) = Some r →
  getitem key td = Some r
  ∨ ∃ name child sub node,
      getitem name cs = Some child ∧ walk child sub = Some node
      ∧ key = stats_key (path ++ name :: sub)
      ∧ first_logger (named_children_of node) L = Some r.
Proof.
  intros Honly Hnd Hvalid Hwn Hpath. revert td.
  induction cs as [|[name0 child0] cs IH]; intros td Hget; [by left|].
  rewrite dict_keys_cons in Hnd, Hvalid.
  apply Forall_cons in Honly as [Hchild Honly].
  apply NoDup_cons in Hnd as [Hfresh Hnd].
  apply Forall_cons in Hvalid as [Hname Hvalid].
  apply Forall_cons in Hwn as [Hwchild Hwn].
  simpl in Hchild, Hwchild. unfold helper_only in Hchild.
  change (descend L (join_dot path) ((name0, child0) :: cs) td)
    with (descend L (join_dot path) cs
            (_get_logger_dict_helper child0 td L
               (module_prefix (join_dot path) name0))) in Hget.
  apply IH in Hget as [Hget|(name & child & sub & node & Hc & Hw & Hk & Hr)];
    [|right|done..].
  - rewrite module_prefix_path in Hget by done.
    apply Hchild in Hget as [Hget|(sub & node & Hw & Hk & Hr)]; [by left| |done|].
    + right. exists name0, child0, sub, node. simpl.
      rewrite decide_True by done. rewrite <- app_assoc in Hk. done.
    + apply Forall_app. by split; [|constructor].
  - exists name, child, sub, node. simpl. rewrite decide_False; [done|].
    intros ->. apply Hfresh, elem_of_dict_keys. by eexists.
Qed.

Lemma helper_only_all L t : helper_only L t.
Proof.
  induction t as [self cs IH] using module_tree_nested_ind.
  intros td path key r Hwn Hpath Hget.
  apply well_named_node in Hwn as (Hnd & Hvalid & Hcs).
  rewrite helper_unfold in Hget.
  apply descend_only in Hget
      as [Hget|(name & child & sub & node & Hc & Hw & Hk & Hr)]; [| |done..].
  - rewrite record_logger_first in Hget.
    destruct (first_logger cs L) as [stats|] eqn:Hfirst; [|by left].
    rewrite stats_key_path, getitem_setitem in Hget by done.
    case_decide as Hkey; [|by left].
    injection Hget as ->. right. exists [], (ModuleNode self cs).
    by rewrite app_nil_r.
  - right. exists (name :: sub), node. simpl. rewrite Hc. done.
Qed.

(** A node records a logger when it has an immediate child that is an
    instance of the logger class, and it records the first such child. *)
Lemma first_logger_Some cs L r :
  first_logger cs L = Some r ↔
  ∃ before name child after,
    cs = before ++ (name, child) :: after
    ∧ logger_stats child L = Some r
    ∧ Forall (λ nc, isinstance nc.2 L = false) before.
Proof.
  induction cs as [|[name0 child0] cs IH]; simpl.
  - split; [done|]. intros (b & ? & ? & ? & Hcs & _). by destruct b.
  - destruct (logger_stats child0 L) as [stats|] eqn:Hs.
    + split.
      * intros [= ->]. exists [], name0, child0, cs. by repeat split.
      * intros ([|[n c] b] & name & child & a & Hcs & Hl & Hb); simplify_eq/=.
        { congruence. }
        apply Forall_cons in Hb as [Hb _]. unfold isinstance in Hb. simpl in Hb.
        rewrite Hs in Hb. by rewrite bool_decide_eq_false in Hb; destruct Hb.
    + rewrite IH. split.
      * intros (b & name & child & a & -> & Hl & Hb).
        exists ((name0, child0) :: b), name, child, a. repeat split; [done|].
        constructor; [|done]. unfold isinstance. simpl. rewrite Hs.
        apply bool_decide_eq_false. by intros [? ?].
      * intros ([|[n c] b] & name & child & a & Hcs & Hl & Hb); simplify_eq/=.
        apply Forall_cons in Hb as [_ Hb]. by exists b, name, child, a.
Qed.

(** C7 (as amended).  On a module tree whose child names are valid and
    distinct among siblings, [get_logger_dict] returns exactly one entry
    for each node -- the root, every descendant, loggers and what lies
    below them included -- that has an immediate child which is an
    instance of the logger class: the key is the node's dotted path
    followed by the segment ["stats"], and the value is the [stats] of the
    first such child. *)
Theorem get_logger_dict_spec (t : module_tree T) (L : logger_class) :
  well_named t →
  ∀ key r,
    getitem key (get_logger_dict t L "") = Some r ↔
    ∃ path node,
      walk t path = Some node ∧ key = stats_key path
      ∧ first_logger (named_children_of node) L = Some r.
Proof.
  intros Hwn key r. unfold get_logger_dict. split.
  - intros Hget. apply (helper_only_all L t [] []) in Hget as [?|?]; done.
  - intros (path & node & Hw & -> & Hr).
    by apply (helper_hit_all L t [] [] path node).
Qed.

End CollectionProperties.

Lemma nested_logger_tree_well_named : well_named nested_logger_tree.
Proof.
  simpl. repeat split;
    repeat (first [apply NoDup_nil_2 | apply NoDup_cons_2 | apply Forall_nil_2
                  | apply Forall_cons_2 | split | discriminate | reflexivity
                  | rewrite ?elem_of_cons, elem_of_nil; intros H; intuition discriminate]).
Defined.

Lemma get_logger_dict_spec_witness :
  getitem "fc.stats" (get_logger_dict nested_logger_tree OutputLogger "")
  = Some {["tensor_val" := Some 3]}.
Proof.
  apply (get_logger_dict_spec nested_logger_tree OutputLogger
           nested_logger_tree_well_named).
  exists ["fc"]. eexists. split; [reflexivity|]. split; reflexivity.
Defined.

(** C7, counterexample.  The claim has the traversal stay out of the
    loggers; the code descends into [lg] and records the logger below it
    under ["lg.stats"], which the traversal as specified does not. *)
Lemma get_logger_dict_claim_fails :
  getitem "lg.stats" (get_logger_dict nested_logger_tree OutputLogger "")
    = Some {["tensor_val" := Some 2]}
  ∧ getitem "lg.stats" (spec_collect_stats nested_logger_tree [] OutputLogger "")
    = None.
Proof. split; reflexivity. Qed.

(** ** More on dictionaries *)

Section DictUpdates.
Context {V : Type}.
Implicit Types (d : odict V) (k : string) (v : V).

Lemma setitem_fresh k v d :
  k ∉ dict_keys d → setitem k v d = d ++ [(k, v)].
Proof.
  induction d as [|[k0 v0] d IH]; [done|].
  rewrite dict_keys_cons, not_elem_of_cons. intros [Hne Hk]. simpl.
  rewrite decide_False by done. by rewrite IH.
Qed.

Lemma dict_keys_setitem_present k v d :
  k ∈ dict_keys d → dict_keys (setitem k v d) = dict_keys d.
Proof.
  induction d as [|[k0 v0] d IH]; [by rewrite elem_of_nil|].
  rewrite dict_keys_cons, elem_of_cons. intros Hk. simpl.
  destruct (decide (k0 = k)) as [->|Hne]; [done|].
  rewrite !dict_keys_cons, IH; [done|]. naive_solver.
Qed.

Lemma dict_keys_app d1 d2 : dict_keys (d1 ++ d2) = dict_keys d1 ++ dict_keys d2.
Proof. unfold dict_keys. apply fmap_app. Qed.

Lemma NoDup_dict_keys_setitem k v d :
  NoDup (dict_keys d) → NoDup (dict_keys (setitem k v d)).
Proof.
  intros Hnd. destruct (decide (k ∈ dict_keys d)) as [Hin|Hout].
  - by rewrite dict_keys_setitem_present.
  - rewrite setitem_fresh, dict_keys_app by done.
    apply NoDup_app. split; [done|]. split; [|apply NoDup_singleton].
    intros x Hx. rewrite dict_keys_cons, elem_of_cons, elem_of_nil.
    intros [->|[]]. done.
Qed.

Lemma getitem_app d1 d2 k :
  getitem k (d1 ++ d2)
  = match getitem k d1 with Some v => Some v | None => getitem k d2 end.
Proof.
  induction d1 as [|[k0 v0] d1 IH]; simpl; [done|]. by case_decide.
Qed.

Lemma getitem_None k d : getitem k d = None ↔ k ∉ dict_keys d.
Proof.
  rewrite elem_of_dict_keys. destruct (getitem k d) as [v|].
  - split; [done|]. intros H. destruct H. by eexists.
  - split; [|done]. by intros _ [? ?].
Qed.

End DictUpdates.

Lemma getitem_fmap {A B} (f : A → B) (k : string) (d : odict A) :
  getitem k (prod_map id f <$> d) = f <$> getitem k d.
Proof.
  induction d as [|[k0 v0] d IH]; simpl; [done|]. by case_decide.
Qed.

Lemma dict_keys_fmap {A B} (f : A → B) (d : odict A) :
  dict_keys (prod_map id f <$> d) = dict_keys d.
Proof.
  unfold dict_keys. rewrite <- list_fmap_compose.
  apply list_fmap_ext. by intros _ [k v] _.
Qed.

(** [children_dict] of a table with distinct names is the table. *)
Lemma children_dict_NoDup (items : list (string * addr)) :
  NoDup (dict_keys items) → children_dict items = items.
Proof.
  unfold children_dict.
  assert (∀ acc, NoDup (dict_keys (acc ++ items)) →
                 foldl (λ d item, setitem item.1 item.2 d) acc items
                 = acc ++ items) as Hgen; [|by apply (Hgen [])].
  induction items as [|[k v] items IH]; intros acc Hnd; simpl.
  - by rewrite app_nil_r.
  - rewrite setitem_fresh.
    + rewrite IH; rewrite <- app_assoc; done.
    + rewrite dict_keys_app, dict_keys_cons in Hnd.
      apply NoDup_app in Hnd as (_ & Hdisj & _). intros Hin.
      apply (Hdisj k Hin). by left.
Qed.

Lemma dict_keys_apply_reassign reassign table :
  dict_keys reassign ⊆ dict_keys table →
  dict_keys (apply_reassign reassign table) = dict_keys table.
Proof.
  unfold apply_reassign. revert table.
  induction reassign as [|[k v] r IH]; intros table Hsub; simpl; [done|].
  rewrite dict_keys_cons in Hsub.
  rewrite IH; rewrite dict_keys_setitem_present; set_solver.
Qed.

Lemma getitem_apply_reassign reassign table k :
  NoDup (dict_keys reassign) →
  getitem k (apply_reassign reassign table)
  = match getitem k reassign with
    | Some v => Some (Some v)
    | None => getitem k table
    end.
Proof.
  unfold apply_reassign. revert table.
  induction reassign as [|[k0 v0] r IH]; intros table Hnd; simpl; [done|].
  rewrite dict_keys_cons in Hnd. apply NoDup_cons in Hnd as [Hk0 Hnd].
  rewrite IH by done. rewrite getitem_setitem.
  destruct (decide (k0 = k)) as [->|Hne]; [|done].
  apply getitem_None in Hk0. by rewrite Hk0.
Qed.

(** A dictionary is determined by its keys and its lookups. *)
Lemma odict_eq {V} (d1 d2 : odict V) :
  NoDup (dict_keys d1) → dict_keys d1 = dict_keys d2 →
  (∀ k, getitem k d1 = getitem k d2) → d1 = d2.
Proof.
  revert d2. induction d1 as [|[k v] d1 IH]; intros [|[k' v'] d2] Hnd Hk Hget;
    try done.
  rewrite !dict_keys_cons in Hk. injection Hk as <- Hk.
  rewrite dict_keys_cons in Hnd. apply NoDup_cons in Hnd as [Hfresh Hnd].
  pose proof (Hget k) as Hv. simpl in Hv. rewrite !decide_True in Hv by done.
  injection Hv as <-. f_equal. apply IH; [done..|].
  intros k0. specialize (Hget k0). simpl in Hget.
  destruct (decide (k = k0)) as [<-|Hne]; [|done].
  assert (getitem k d1 = None) as -> by (by apply getitem_None).
  symmetry. apply getitem_None. by rewrite <- Hk.
Qed.

(** ** Object trees *)

Arguments new_Shadow : simpl never.

Lemma obj_tree_nested_ind (P : obj_tree → Prop) :
  (∀ a c cs, Forall (λ nc, P nc.2) cs → P (ObjTree a c cs)) →
  ∀ t, P t.
Proof.
  intros Hnode. fix IH 1. intros [a c cs]. apply Hnode.
  induction cs as [|[name child] cs IHcs]; constructor; [apply IH | apply IHcs].
Qed.

Lemma child_addrs_cons name t cs :
  child_addrs ((name, t) :: cs) = addrs t ++ child_addrs cs.
Proof. reflexivity. Qed.

Lemma addrs_node a c cs : addrs (ObjTree a c cs) = a :: child_addrs cs.
Proof.
  simpl. f_equal. induction cs as [|[name t] cs IH]; [done|].
  by rewrite child_addrs_cons, IH.
Qed.

Lemma elem_of_child_addrs a cs :
  a ∈ child_addrs cs ↔ ∃ name t, (name, t) ∈ cs ∧ a ∈ addrs t.
Proof.
  unfold child_addrs. rewrite list_elem_of_bind. split.
  - intros ([name t] & Ha & Hin). by exists name, t.
  - intros (name & t & Hin & Ha). by exists (name, t).
Qed.

Lemma root_in_addrs t : root t ∈ addrs t.
Proof. destruct t as [a c cs]. rewrite addrs_node. by left. Qed.

Lemma depth_node_le a c cs (fuel : nat) :
  (depth (ObjTree a c cs) ≤ S fuel)%nat
  ↔ Forall (λ nc, (depth nc.2 ≤ fuel)%nat) cs.
Proof.
  simpl. rewrite <- Nat.succ_le_mono.
  induction cs as [|[name t] cs IH]; simpl.
  - split; [constructor | lia].
  - rewrite Forall_cons, <- IH. simpl. lia.
Qed.

Lemma depth_pos t : (1 ≤ depth t)%nat.
Proof. destruct t; simpl; lia. Qed.

Lemma holds_node h a c cs :
  holds h (ObjTree a c cs) ↔
  h !! a = Some (ModuleObj c (table_of cs))
  ∧ Forall (λ nc, holds h nc.2) cs.
Proof.
  simpl. apply and_iff_compat_l.
  induction cs as [|[name t] cs IH]; simpl.
  - split; [constructor | done].
  - by rewrite Forall_cons, IH.
Qed.

Lemma unique_names_node a c cs :
  unique_names (ObjTree a c cs) ↔
  NoDup (dict_keys cs) ∧ Forall (λ nc, unique_names nc.2) cs.
Proof.
  simpl. apply and_iff_compat_l.
  induction cs as [|[name t] cs IH]; simpl.
  - split; [constructor | done].
  - by rewrite Forall_cons, IH.
Qed.

Lemma holds_root h t :
  holds h t →
  h !! root t = Some (ModuleObj (class_of t) (table_of (subtrees t))).
Proof. destruct t as [a c cs]. by intros [? _]%holds_node. Qed.

Lemma holds_dom h t a : holds h t → a ∈ addrs t → a ∈ dom h.
Proof.
  induction t as [b c cs IH] using obj_tree_nested_ind.
  intros [Hb Hcs]%holds_node. rewrite addrs_node, elem_of_cons.
  intros [->|(name & t & Hin & Ha)%elem_of_child_addrs].
  - apply elem_of_dom. by eexists.
  - rewrite Forall_forall in IH, Hcs.
    apply (IH (name, t) Hin); [|done]. apply (Hcs (name, t) Hin).
Qed.

(** A tree held by a store is held by any store that agrees on its
    objects. *)
Lemma holds_agree h h' t :
  holds h t → (∀ a, a ∈ addrs t → h' !! a = h !! a) → holds h' t.
Proof.
  induction t as [b c cs IH] using obj_tree_nested_ind.
  intros [Hb Hcs]%holds_node Hagree. apply holds_node. split.
  - rewrite Hagree; [done|]. rewrite addrs_node. by left.
  - rewrite Forall_forall in IH, Hcs. apply Forall_forall.
    intros [name t] Hin. apply (IH _ Hin); [by apply (Hcs _ Hin)|].
    intros a Ha. apply Hagree. rewrite addrs_node. right.
    apply elem_of_child_addrs. by exists name, t.
Qed.

Lemma holds_subtree h t name c :
  holds h t → getitem name (subtrees t) = Some c → holds h c.
Proof.
  destruct t as [a cl cs]. intros [_ Hcs]%holds_node Hget. simpl in Hget.
  apply getitem_Some_elem_of in Hget. rewrite Forall_forall in Hcs.
  by apply (Hcs (name, c)).
Qed.

Lemma unique_names_subtree t name c :
  unique_names t → getitem name (subtrees t) = Some c → unique_names c.
Proof.
  destruct t as [a cl cs]. intros [_ Hcs]%unique_names_node Hget.
  simpl in Hget. apply getitem_Some_elem_of in Hget.
  rewrite Forall_forall in Hcs. by apply (Hcs (name, c)).
Qed.

Lemma addrs_subtree t name c a :
  getitem name (subtrees t) = Some c → a ∈ addrs c → a ∈ addrs t.
Proof.
  destruct t as [b cl cs]. intros Hget Ha. simpl in Hget.
  apply getitem_Some_elem_of in Hget. rewrite addrs_node. right. apply elem_of_child_addrs. by exists name, c.
Qed.

Lemma NoDup_subtree t name c :
  NoDup (addrs t) → getitem name (subtrees t) = Some c → NoDup (addrs c).
Proof.
  destruct t as [a cl cs]. rewrite addrs_node. intros [_ Hnd]%NoDup_cons Hget.
  simpl in Hget. revert Hnd Hget.
  induction cs as [|[n t] cs IH]; [done|].
  rewrite child_addrs_cons. intros (Ht & _ & Hcs)%NoDup_app. simpl.
  case_decide; [by intros [= <-] | by apply IH].
Qed.

(** ** What [named_children()] yields on a tree *)

Lemma table_of_cons name t cs :
  table_of ((name, t) :: cs) = (name, Some (root t)) :: table_of cs.
Proof. reflexivity. Qed.

Lemma dict_keys_table_of cs : dict_keys (table_of cs) = dict_keys cs.
Proof. unfold table_of. apply dict_keys_fmap. Qed.

Lemma getitem_table_of name cs :
  getitem name (table_of cs) = (λ t, Some (root t)) <$> getitem name cs.
Proof. unfold table_of. apply getitem_fmap. Qed.

(** The names that are yielded are names of the table. *)
Lemma dict_keys_yield_children memo items :
  dict_keys (yield_children memo items) ⊆ dict_keys items.
Proof.
  revert memo. induction items as [|[name [m|]] items IH]; intros memo;
    cbn [yield_children].
  - done.
  - rewrite dict_keys_cons. case_decide.
    + intros k Hk. right. by apply (IH memo).
    + rewrite dict_keys_cons. intros k [->|Hk]%elem_of_cons; [by left|].
      right. by apply (IH (m :: memo)).
  - rewrite dict_keys_cons. intros k Hk. right. by apply (IH memo).
Qed.

(** On the table of a node whose subtrees have no object in common,
    every entry is yielded. *)
Lemma yield_children_table memo cs :
  NoDup (child_addrs cs) → (∀ a, a ∈ memo → a ∉ child_addrs cs) →
  yield_children memo (table_of cs) = prod_map id root <$> cs.
Proof.
  revert memo. induction cs as [|[name t] cs IH]; intros memo Hnd Hmemo;
    [done|].
  rewrite table_of_cons, fmap_cons. cbn [yield_children].
  rewrite child_addrs_cons in Hnd, Hmemo.
  apply NoDup_app in Hnd as (_ & Hdisj & Hnd).
  rewrite decide_False.
  - change (prod_map id root (name, t)) with (name, root t). f_equal.
    apply IH; [done|]. intros a [->|Ha]%elem_of_cons.
    + apply Hdisj, root_in_addrs.
    + intros Hin. apply (Hmemo a Ha). apply elem_of_app. by right.
  - intros Hin. apply (Hmemo _ Hin). apply elem_of_app. left.
    apply root_in_addrs.
Qed.

Lemma named_children_holds h t :
  holds h t → NoDup (addrs t) →
  named_children h (root t) = Some (prod_map id root <$> subtrees t).
Proof.
  intros Ht Hnd. unfold named_children. rewrite (holds_root h t Ht). simpl.
  destruct t as [a c cs]. rewrite addrs_node in Hnd.
  apply NoDup_cons in Hnd as [_ Hnd]. simpl.
  rewrite yield_children_table; [done..|]. by intros a' ?%elem_of_nil.
Qed.

Lemma stubbed_node old swap L tf a c cs tq' :
  stubbed old swap L tf (ObjTree a c cs) tq' ↔
  root tq' = a ∧ class_of tq' = c
  ∧ Forall2 (child_stubbed old swap L tf) cs (subtrees tq').
Proof.
  simpl. do 2 apply and_iff_compat_l. generalize (subtrees tq').
  induction cs as [|[name qc] cs IH]; intros [|[name' qc'] cs']; simpl.
  - split; [constructor | done].
  - split; [done | by intros ?%Forall2_nil_cons_inv].
  - split; [done | by intros ?%Forall2_cons_nil_inv].
  - rewrite Forall2_cons, IH. unfold child_stubbed. simpl. tauto.
Qed.

Lemma stubbed_root old swap L tf tq tq' :
  stubbed old swap L tf tq tq' → root tq' = root tq.
Proof. destruct tq. by intros [? _]%stubbed_node. Qed.

(** ** The walker keeps classes and child names *)

Lemma preserved_refl h : preserved h h.
Proof. intros a o Ho. by exists o. Qed.

Lemma preserved_trans h1 h2 h3 :
  preserved h1 h2 → preserved h2 h3 → preserved h1 h3.
Proof.
  intros H12 H23 a o Ho.
  destruct (H12 a o Ho) as (o2 & Ho2 & Hc2 & Hk2).
  destruct (H23 a o2 Ho2) as (o3 & Ho3 & Hc3 & Hk3).
  exists o3. split; [done|]. split; congruence.
Qed.

Lemma preserved_dom h h' a : preserved h h' → a ∈ dom h → a ∈ dom h'.
Proof.
  intros Hp [o Ho]%elem_of_dom. destruct (Hp a o Ho) as (o' & Ho' & _).
  apply elem_of_dom. by eexists.
Qed.

(** What [Shadow(...)] allocates. *)
Lemma new_Shadow_spec q_module float_module L h :
  ∃ s d l h',
    new_Shadow q_module float_module L h = (s, h')
    ∧ (s ∉ dom h) ∧ (d ∉ dom h) ∧ (l ∉ dom h)
    ∧ h' !! s = Some (ModuleObj cls_Shadow
                        [("orig_module", Some q_module);
                         ("shadow_module", Some float_module);
                         ("dequant", Some d); ("logger", Some l)])
    ∧ h' !! d = Some (ModuleObj cls_DeQuantize [])
    ∧ h' !! l = Some (ModuleObj (cls_logger L) [])
    ∧ (∀ a, a ∈ dom h → h' !! a = h !! a).
Proof.
  unfold new_Shadow.
  set (s := fresh (dom h)).
  set (d := fresh ({[s]} ∪ dom h)).
  set (l := fresh ({[d]} ∪ ({[s]} ∪ dom h))).
  assert (s ∉ dom h) as Hs by apply is_fresh.
  assert (d ∉ {[s]} ∪ dom h) as Hd by apply is_fresh.
  assert (l ∉ {[d]} ∪ ({[s]} ∪ dom h)) as Hl by apply is_fresh.
  exists s, d, l. eexists. split; [done|].
  assert (d ≠ s) by set_solver. assert (l ≠ s) by set_solver.
  assert (l ≠ d) by set_solver.
  repeat split; [done | set_solver | set_solver | ..].
  - rewrite !lookup_insert_ne by done. apply lookup_insert_eq.
  - rewrite lookup_insert_ne by done. apply lookup_insert_eq.
  - apply lookup_insert_eq.
  - intros a Ha. rewrite !lookup_insert_ne; [done|set_solver..].
Qed.

Lemma new_Shadow_preserved q_module float_module L h :
  preserved h (new_Shadow q_module float_module L h).2.
Proof.
  destruct (new_Shadow_spec q_module float_module L h)
    as (s & d & l & h' & -> & _ & _ & _ & _ & _ & _ & Hsame).
  intros a o Ho. exists o. split; [|done]. simpl. rewrite Hsame; [done|].
  apply elem_of_dom. by eexists.
Qed.

Lemma set_module_preserved m h kv h' :
  set_module m h kv = Some h' →
  (∀ o, h !! m = Some o → kv.1 ∈ dict_keys (obj_modules o)) →
  preserved h h'.
Proof.
  unfold set_module. destruct (h !! m) as [o|] eqn:Ho; simpl; [|done].
  intros [= <-] Hkey a oa Hoa. destruct (decide (a = m)) as [->|Hne].
  - rewrite lookup_insert_eq. eexists. split; [done|]. simpl.
    rewrite Ho in Hoa. injection Hoa as <-. split; [done|].
    apply dict_keys_setitem_present. by apply Hkey.
  - rewrite lookup_insert_ne by done. by exists oa.
Qed.

Lemma set_modules_preserved m reassign h h' :
  for_each (set_module m) reassign h = Some h' →
  (∀ o, h !! m = Some o → dict_keys reassign ⊆ dict_keys (obj_modules o)) →
  preserved h h'.
Proof.
  revert h. induction reassign as [|kv r IH]; intros h Hrun Hkeys;
    simpl in Hrun.
  - injection Hrun as <-. apply preserved_refl.
  - destruct (set_module m h kv) as [h1|] eqn:Hset; simpl in Hrun; [|done].
    assert (preserved h h1) as Hp.
    { eapply set_module_preserved; [done|]. intros o Ho.
      apply (Hkeys o Ho). destruct kv. rewrite dict_keys_cons. by left. }
    eapply preserved_trans; [exact Hp|]. apply IH; [done|].
    intros o1 Ho1. unfold set_module in Hset.
    destruct (h !! m) as [o|] eqn:Ho; simpl in Hset; [|done].
    destruct (Hp m o Ho) as (o' & Ho' & _ & Hk). rewrite Ho1 in Ho'.
    injection Ho' as <-. rewrite Hk. intros k Hk'. apply (Hkeys o eq_refl).
    destruct kv. rewrite dict_keys_cons. by right.
Qed.

(** The body of the loop of the walker. *)
Lemma stubs_body_unfold recurse fdict swap L name mod_ h r :
  stubs_body recurse fdict swap L (h, r) (name, mod_)
  = match getitem name fdict with
    | None => Some (h, r)
    | Some float_mod =>
        match type_of h float_mod with
        | None => None
        | Some ty =>
            if decide (ty ∈ swap) then
              Some ((new_Shadow mod_ float_mod L h).2,
                    setitem name (new_Shadow mod_ float_mod L h).1 r)
            else
              match recurse float_mod mod_ h with
              | None => None
              | Some h1 => Some (h1, r)
              end
        end
    end.
Proof.
  simpl. destruct (getitem name fdict) as [float_mod|]; simpl; [|done].
  destruct (type_of h float_mod) as [ty|]; simpl; [|done].
  destruct (decide (ty ∈ swap)).
  - by destruct (new_Shadow mod_ float_mod L h).
  - by destruct (recurse float_mod mod_ h).
Qed.

Lemma stubs_body_preserved recurse fdict swap L name mod_ h r h' r' :
  (∀ f q h h', recurse f q h = Some h' → preserved h h') →
  stubs_body recurse fdict swap L (h, r) (name, mod_) = Some (h', r') →
  preserved h h' ∧ dict_keys r' ⊆ name :: dict_keys r.
Proof.
  intros Hrec. rewrite stubs_body_unfold.
  destruct (getitem name fdict) as [float_mod|].
  - destruct (type_of h float_mod) as [ty|]; [|done].
    destruct (decide (ty ∈ swap)).
    + intros [= <- <-]. split; [apply new_Shadow_preserved|].
      intros k [->|Hin]%dict_keys_setitem; [by left | by right].
    + destruct (recurse float_mod mod_ h) as [h1|] eqn:Hr; [|done].
      intros [= <- <-]. split; [by eapply Hrec|]. intros k Hk. by right.
  - intros [= <- <-]. split; [apply preserved_refl|]. intros k Hk. by right.
Qed.

(** One entry of the table of the quantized module. *)
Lemma stubs_step_unfold recurse fdict swap L q h r memo name :
  stubs_step recurse fdict swap L q (h, r, memo) name
  = match h !! q with
    | None => None
    | Some o =>
        match getitem name (obj_modules o) with
        | None => None
        | Some None => Some (h, r, memo)
        | Some (Some mod_) =>
            if decide (mod_ ∈ memo) then Some (h, r, memo)
            else match stubs_body recurse fdict swap L (h, r) (name, mod_) with
                 | None => None
                 | Some st' => Some (st', mod_ :: memo)
                 end
        end
    end.
Proof.
  unfold stubs_step. destruct (h !! q) as [o|]; simpl; [|done].
  by destruct (getitem name (obj_modules o)) as [[mod_|]|].
Qed.

Lemma stubs_loop_preserved recurse fdict swap L q names :
  (∀ f q h h', recurse f q h = Some h' → preserved h h') →
  ∀ h r memo h' r' memo',
    for_each (stubs_step recurse fdict swap L q) names (h, r, memo)
      = Some (h', r', memo') →
    preserved h h' ∧ dict_keys r' ⊆ dict_keys r ++ names.
Proof.
  intros Hrec. induction names as [|name names IH];
    intros h r memo h' r' memo' Hrun.
  - injection Hrun as <- <- <-. split; [apply preserved_refl|].
    by rewrite app_nil_r.
  - cbn [for_each] in Hrun. rewrite stubs_step_unfold in Hrun.
    assert (∀ k, k ∈ dict_keys r ++ names → k ∈ dict_keys r ++ name :: names)
      as Hweak.
    { intros k. rewrite !elem_of_app, elem_of_cons. tauto. }
    destruct (h !! q) as [o|]; [|done].
    destruct (getitem name (obj_modules o)) as [[mod_|]|]; [| |done].
    + case_decide.
      * apply IH in Hrun as [Hp Hk]. split; [done|].
        intros k Hin. by apply Hweak, Hk.
      * destruct (stubs_body recurse fdict swap L (h, r) (name, mod_))
          as [[h1 r1]|] eqn:Hbody; [|done].
        apply stubs_body_preserved in Hbody as [Hp1 Hk1]; [|done].
        apply IH in Hrun as [Hp Hk]. split; [by eapply preserved_trans|].
        intros k Hin. apply Hk in Hin. rewrite elem_of_app in Hin.
        rewrite elem_of_app, elem_of_cons.
        destruct Hin as [Hin|Hin]; [|tauto].
        apply Hk1 in Hin. apply elem_of_cons in Hin. tauto.
    + apply IH in Hrun as [Hp Hk]. split; [done|].
      intros k Hin. by apply Hweak, Hk.
Qed.

(** Whenever the walker returns, every object that existed before has kept
    its class and the names of its child table: all the walker does to an
    existing object is to reassign entries of its table. *)
Lemma prepare_preserved fuel float_module q_module swap L h h' :
  prepare_model_with_stubs fuel float_module q_module swap L h = Some h' →
  preserved h h'.
Proof.
  revert float_module q_module h h'.
  induction fuel as [|fuel IH]; intros f q h h'; simpl; [done|].
  destruct (named_children h f) as [fch|]; simpl; [|done].
  destruct (h !! q) as [qo|] eqn:Hq; simpl; [|done].
  destruct (for_each _ _ _) as [[[h1 r1] memo1]|] eqn:Hloop; simpl; [|done].
  apply stubs_loop_preserved in Hloop as [Hp Hk]; [|by intros; eapply IH].
  intros Hset. eapply preserved_trans; [exact Hp|].
  eapply set_modules_preserved; [exact Hset|].
  intros o1 Ho1. destruct (Hp q qo Hq) as (o' & Ho' & _ & Hk').
  rewrite Ho1 in Ho'. injection Ho' as <-. rewrite Hk'.
  intros k Hin. by apply Hk in Hin.
Qed.

Arguments set_module : simpl never.
Opaque new_Shadow.

(** ** The walker on trees *)

Lemma set_modules_run m c reassign table h :
  h !! m = Some (ModuleObj c table) →
  for_each (set_module m) reassign h
  = Some (<[m := ModuleObj c (apply_reassign reassign table)]> h).
Proof.
  revert table h. induction reassign as [|[k v] r IH]; intros table h Hm.
  - simpl. by rewrite insert_id.
  - assert (set_module m h (k, v)
            = Some (<[m := ModuleObj c (setitem k (Some v) table)]> h))
      as Hstep by (unfold set_module; by rewrite Hm).
    simpl. rewrite Hstep. simpl.
    rewrite (IH (setitem k (Some v) table)) by apply lookup_insert_eq.
    by rewrite insert_insert_eq.
Qed.

Lemma holds_Shadow_tree h s d l L qc fc :
  h !! s = Some (ModuleObj cls_Shadow
                   [("orig_module", Some (root qc));
                    ("shadow_module", Some (root fc));
                    ("dequant", Some d); ("logger", Some l)]) →
  h !! d = Some (ModuleObj cls_DeQuantize []) →
  h !! l = Some (ModuleObj (cls_logger L) []) →
  holds h qc → holds h fc →
  holds h (Shadow_tree s d l L qc fc).
Proof. intros. unfold Shadow_tree. simpl. by repeat split. Qed.

Lemma addrs_Shadow_tree a s d l L qc fc :
  a ∈ addrs (Shadow_tree s d l L qc fc) ↔
  a = s ∨ a ∈ addrs qc ∨ a ∈ addrs fc ∨ a = d ∨ a = l.
Proof.
  unfold Shadow_tree. rewrite addrs_node, !child_addrs_cons. simpl.
  rewrite elem_of_cons, !elem_of_app, !elem_of_cons, elem_of_nil. tauto.
Qed.

Section Loop.
Context (swap : list py_class) (L : logger_class) (fuel : nat).
Context (tf : obj_tree).

(** One child of the quantized module. *)
Lemma stubs_step_ok name qc h r (old : gset addr) :
  prepare_ok swap L qc → unique_names tf → NoDup (addrs tf) →
  holds h qc → holds h tf →
  NoDup (addrs qc) → (∀ a, a ∈ addrs qc → a ∉ addrs tf) →
  unique_names qc → (depth qc ≤ fuel)%nat → old ⊆ dom h →
  NoDup (dict_keys r) →
  ∃ h1 r1 qc1,
    loop_body swap L fuel tf (h, r) (name, root qc) = Some (h1, r1)
    ∧ holds h1 qc1
    ∧ child_stubbed old swap L tf (name, qc) (name, qc1)
    ∧ (∀ a, a ∈ dom h → a ∉ addrs qc → h1 !! a = h !! a)
    ∧ dom h ⊆ dom h1
    ∧ (∀ a, a ∈ addrs qc1 → a ∈ addrs qc ∨ a ∈ addrs tf ∨ a ∉ dom h)
    ∧ NoDup (dict_keys r1)
    ∧ (∀ nm, nm ≠ name → getitem nm r1 = getitem nm r)
    ∧ (getitem name r1 = Some (root qc1)
       ∨ getitem name r1 = getitem name r ∧ root qc1 = root qc).
Proof.
  intros Hok Hutf Hndf Hqc Htf Hnd Hsep Huq Hdepth Hold Hr.
  destruct (getitem name (subtrees tf)) as [fc|] eqn:Hfc.
  - assert (holds h fc) as Hhfc by exact (holds_subtree h tf name fc Htf Hfc).
    assert (∀ a, a ∈ addrs fc → a ∈ addrs tf) as Hfcin
      by (intros a; exact (addrs_subtree tf name fc a Hfc)).
    destruct (decide (class_of fc ∈ swap)) as [Hswap|Hswap].
    + (* the child is replaced by a Shadow wrapper *)
      destruct (new_Shadow_spec (root qc) (root fc) L h)
        as (s & d & l & h1 & Hnew & Hs & Hd & Hl & Hs1 & Hd1 & Hl1 & Hsame).
      assert (∀ t, holds h t → holds h1 t) as Hkeep.
      { intros t Ht. apply (holds_agree h); [done|].
        intros a Ha. apply Hsame. by eapply holds_dom. }
      exists h1, (setitem name s r), (Shadow_tree s d l L qc fc).
      split; [|split; [|split; [|split; [|split; [|split; [|split; [|split]]]]]]].
      * unfold loop_body. rewrite stubs_body_unfold.
        rewrite getitem_fmap, Hfc. simpl. unfold type_of.
        rewrite (holds_root _ _ Hhfc). simpl.
        rewrite decide_True by done. by rewrite Hnew.
      * apply holds_Shadow_tree; auto.
      * split; [done|]. simpl. rewrite Hfc, decide_True by done.
        exists s, d, l. split; [set_solver|]. split; [set_solver|]. by split; [set_solver|].
      * intros a Ha _. by apply Hsame.
      * intros a Ha. apply elem_of_dom. rewrite Hsame by done.
        by apply elem_of_dom.
      * intros a [ -> | [ ? | [ ? | [ -> | -> ]]]]%addrs_Shadow_tree; auto.
      * by apply NoDup_dict_keys_setitem.
      * intros nm Hne. by apply getitem_setitem_ne.
      * left. apply getitem_setitem_eq.
    + (* the walker recurses into the pair *)
      assert (∀ a, a ∈ addrs qc → a ∉ addrs fc) as Hsepfc
        by (intros a Ha Ha'; by apply (Hsep a Ha), Hfcin).
      assert (unique_names fc) as Hufc
        by exact (unique_names_subtree tf name fc Hutf Hfc).
      assert (NoDup (addrs fc)) as Hndfc
        by exact (NoDup_subtree tf name fc Hndf Hfc).
      destruct (Hok fc h old fuel Hqc Hhfc Hnd Hndfc Hsepfc Huq Hufc Hdepth
                  Hold)
        as (h1 & qc1 & Hrun & Hh1 & Hst & Hframe & Hfoot).
      exists h1, r, qc1.
      split; [|split; [|split; [|split; [|split; [|split; [|split; [|split]]]]]]].
      * unfold loop_body. rewrite stubs_body_unfold.
        rewrite getitem_fmap, Hfc. simpl. unfold type_of.
        rewrite (holds_root _ _ Hhfc). simpl.
        rewrite decide_False by done. by rewrite Hrun.
      * done.
      * split; [done|]. simpl. by rewrite Hfc, decide_False.
      * done.
      * intros a Ha. eapply preserved_dom; [|done].
        by eapply prepare_preserved.
      * intros a Ha. destruct (Hfoot a Ha) as [?|[?|?]]; auto.
      * done.
      * done.
      * right. split; [done|]. by eapply stubbed_root.
  - (* no float sibling: the child is skipped *)
    exists h, r, qc.
    split; [|split; [|split; [|split; [|split; [|split; [|split; [|split]]]]]]];
      try done.
    + unfold loop_body. rewrite stubs_body_unfold.
      by rewrite getitem_fmap, Hfc.
    + split; [done|]. simpl. by rewrite Hfc.
    + auto.
    + by right.
Qed.

(** An entry that is yielded to the body. *)
Lemma loop_step_yield q c table h r memo name m st' :
  h !! q = Some (ModuleObj c table) →
  getitem name table = Some (Some m) → m ∉ memo →
  loop_body swap L fuel tf (h, r) (name, m) = Some st' →
  loop_step swap L fuel tf q (h, r, memo) name = Some (st', m :: memo).
Proof.
  intros Hq Hentry Hm Hbody. unfold loop_step.
  rewrite stubs_step_unfold, Hq. cbn [obj_modules]. rewrite Hentry.
  rewrite decide_False by done.
  unfold loop_body in Hbody. by rewrite Hbody.
Qed.

(** The whole loop, from any point on: the entries that remain are those
    of the children [cs], none of which was yielded before. *)
Lemma stubs_loop_ok q c table cs :
  Forall (λ nc, prepare_ok swap L nc.2) cs → unique_names tf →
  NoDup (addrs tf) →
  ∀ h r memo (old : gset addr),
    h !! q = Some (ModuleObj c table) →
    Forall (λ nc, getitem nc.1 table = Some (Some (root nc.2))) cs →
    q ∉ child_addrs cs → (∀ a, a ∈ memo → a ∉ child_addrs cs) →
    Forall (λ nc, holds h nc.2) cs → holds h tf →
    NoDup (child_addrs cs) → (∀ a, a ∈ child_addrs cs → a ∉ addrs tf) →
    Forall (λ nc, unique_names nc.2) cs → NoDup (dict_keys cs) →
    Forall (λ nc, (depth nc.2 ≤ fuel)%nat) cs → old ⊆ dom h →
    NoDup (dict_keys r) →
    ∃ h' r' memo' cs',
      for_each (loop_step swap L fuel tf q) (dict_keys cs) (h, r, memo)
        = Some (h', r', memo')
      ∧ Forall (λ nc, holds h' nc.2) cs'
      ∧ Forall2 (child_stubbed old swap L tf) cs cs'
      ∧ (∀ a, a ∈ dom h → a ∉ child_addrs cs → h' !! a = h !! a)
      ∧ (∀ a, a ∈ child_addrs cs' →
              a ∈ child_addrs cs ∨ a ∈ addrs tf ∨ a ∉ dom h)
      ∧ NoDup (dict_keys r')
      ∧ (∀ nm, nm ∉ dict_keys cs → getitem nm r' = getitem nm r)
      ∧ (∀ nm c c', getitem nm cs = Some c → getitem nm cs' = Some c' →
            getitem nm r' = Some (root c')
            ∨ getitem nm r' = getitem nm r ∧ root c' = root c).
Proof.
  intros Hoks Hutf Hndf. induction cs as [|[name qc] cs IH];
    intros h r memo old Hq Hent Hqout Hmemo Hcs Htf Hnd Hsep Hucs Hnames
      Hdepth Hold Hr.
  - exists h, r, memo, []. repeat split; try done; try (by constructor).
  - apply Forall_cons in Hoks as [Hok Hoks].
    apply Forall_cons in Hent as [Hentry Hent].
    apply Forall_cons in Hcs as [Hqc Hcs].
    apply Forall_cons in Hucs as [Huq Hucs].
    apply Forall_cons in Hdepth as [Hdq Hdepth].
    simpl in Hok, Hentry, Hqc, Huq, Hdq.
    rewrite child_addrs_cons in Hnd, Hsep, Hqout, Hmemo.
    apply NoDup_app in Hnd as (Hndq & Hdisj & Hndcs).
    rewrite dict_keys_cons in Hnames.
    apply NoDup_cons in Hnames as [Hfresh Hnames].
    assert (∀ a, a ∈ addrs qc → a ∉ addrs tf) as Hsepq
      by (intros a Ha; apply Hsep, elem_of_app; by left).
    assert (∀ a, a ∈ child_addrs cs → a ∉ addrs tf) as Hsepcs
      by (intros a Ha; apply Hsep, elem_of_app; by right).
    assert (q ∉ addrs qc) as Hqqc
      by (intros Hin; apply Hqout, elem_of_app; by left).
    assert (q ∉ child_addrs cs) as Hqcs
      by (intros Hin; apply Hqout, elem_of_app; by right).
    assert (root qc ∉ memo) as Hfreshq.
    { intros Hin. apply (Hmemo _ Hin), elem_of_app. left.
      apply root_in_addrs. }
    destruct (stubs_step_ok name qc h r old Hok Hutf Hndf Hqc Htf Hndq Hsepq
                Huq Hdq Hold Hr)
      as (h1 & r1 & qc1 & Hstep & Hh1 & Hst1 & Hframe1 & Hdom1 & Hfoot1
          & Hr1 & Hother1 & Hthis1).
    assert (q ∈ dom h) as Hqdom by (apply elem_of_dom; by eexists).
    assert (h1 !! q = Some (ModuleObj c table)) as Hq1
      by (by rewrite Hframe1).
    assert (∀ a, a ∈ child_addrs cs → a ∈ dom h) as Hcsdom.
    { intros a (nm & t & Hin & Ha)%elem_of_child_addrs.
      rewrite Forall_forall in Hcs.
      exact (holds_dom h t a (Hcs (nm, t) Hin) Ha). }
    assert (∀ a, a ∈ child_addrs cs → h1 !! a = h !! a) as Hsame1.
    { intros a Ha. apply Hframe1; [by apply Hcsdom|].
      intros Ha'. by apply (Hdisj a Ha'). }
    assert (Forall (λ nc, holds h1 nc.2) cs) as Hcs1.
    { rewrite Forall_forall in Hcs. apply Forall_forall. intros [nm t] Hin.
      apply (holds_agree h); [by apply (Hcs (nm, t))|].
      intros a Ha. apply Hsame1. apply elem_of_child_addrs. by exists nm, t. }
    assert (holds h1 tf) as Htf1.
    { apply (holds_agree h); [done|]. intros a Ha.
      apply Hframe1; [exact (holds_dom h tf a Htf Ha)|].
      intros Ha'. by apply (Hsepq a). }
    assert (old ⊆ dom h1) as Hold1 by set_solver.
    assert (∀ a, a ∈ root qc :: memo → a ∉ child_addrs cs) as Hmemo1.
    { intros a [->|Ha]%elem_of_cons.
      - apply Hdisj, root_in_addrs.
      - intros Hin. apply (Hmemo a Ha), elem_of_app. by right. }
    destruct (IH Hoks h1 r1 (root qc :: memo) old Hq1 Hent Hqcs Hmemo1 Hcs1
                Htf1 Hndcs Hsepcs Hucs Hnames Hdepth Hold1 Hr1)
      as (h' & r' & memo' & cs' & Hrun & Hcs' & Hst & Hframe & Hfoot & Hr'
          & Hother & Hthese).
    assert (∀ a, a ∈ addrs qc1 → a ∉ child_addrs cs) as Hqc1.
    { intros a Ha Ha'. destruct (Hfoot1 a Ha) as [?|[?|?]].
      - by apply (Hdisj a).
      - by apply (Hsepcs a).
      - auto. }
    exists h', r', memo', ((name, qc1) :: cs').
    split; [|split; [|split; [|split; [|split; [|split; [|split]]]]]].
    + rewrite dict_keys_cons. cbn [for_each].
      rewrite (loop_step_yield q c table h r memo name (root qc) (h1, r1))
        by done.
      exact Hrun.
    + constructor; [|done]. simpl. apply (holds_agree h1); [done|].
      intros a Ha. apply Hframe; [exact (holds_dom h1 qc1 a Hh1 Ha) | by apply Hqc1].
    + by constructor.
    + intros a Ha Hout. rewrite child_addrs_cons, elem_of_app in Hout.
      rewrite Hframe; [|by apply Hdom1|tauto]. apply Hframe1; [done|tauto].
    + intros a. rewrite !child_addrs_cons, !elem_of_app.
      intros [Ha|Ha].
      * destruct (Hfoot1 a Ha) as [?|[?|?]]; auto.
      * destruct (Hfoot a Ha) as [?|[?|Hnew]]; auto.
        right. right. intros Hin. by apply Hnew, Hdom1.
    + done.
    + intros nm. rewrite dict_keys_cons, not_elem_of_cons.
      intros [Hne Hout]. rewrite Hother by done. by apply Hother1.
    + intros nm c0 c0'. simpl. destruct (decide (name = nm)) as [<-|Hne].
      * intros [= <-] [= <-]. rewrite Hother by done. done.
      * intros Hc Hc'. destruct (Hthese nm c0 c0' Hc Hc') as [?|[Heq ?]];
          [by left|]. right. split; [|done].
        rewrite Heq. by apply Hother1.
Qed.

End Loop.

Lemma prepare_unfold fuel f q swap L h :
  prepare_model_with_stubs (S fuel) f q swap L h
  = (fch ← named_children h f;
     qo ← h !! q;
     st ← for_each
            (stubs_step
               (λ float_mod mod_ h,
                  prepare_model_with_stubs fuel float_mod mod_ swap L h)
               (children_dict fch) swap L q)
            (dict_keys (obj_modules qo)) (h, [], []);
     for_each (set_module q) st.1.2 st.1.1).
Proof. reflexivity. Qed.

Lemma child_stubbed_keys old swap L tf cs cs' :
  Forall2 (child_stubbed old swap L tf) cs cs' → dict_keys cs' = dict_keys cs.
Proof.
  induction 1 as [|[n c] [n' c'] cs cs' [Hn _] _ IH]; [done|].
  rewrite !dict_keys_cons. simpl in Hn. by rewrite Hn, IH.
Qed.

(** The table of the quantized module after the reassignments names the
    roots of the new children. *)
Lemma reassigned_table (cs cs' : list (string * obj_tree)) (r : odict addr) :
  NoDup (dict_keys cs) → dict_keys cs' = dict_keys cs → NoDup (dict_keys r) →
  (∀ nm, nm ∉ dict_keys cs → getitem nm r = None) →
  (∀ nm c c', getitem nm cs = Some c → getitem nm cs' = Some c' →
     getitem nm r = Some (root c')
     ∨ getitem nm r = None ∧ root c' = root c) →
  apply_reassign r (table_of cs) = table_of cs'.
Proof.
  intros Hnd Hkeys Hr Hother Hthese.
  assert (dict_keys r ⊆ dict_keys cs) as Hsub.
  { intros nm Hin. destruct (decide (nm ∈ dict_keys cs)) as [|Hout]; [done|].
    apply Hother in Hout. apply elem_of_dict_keys in Hin as [v Hv]. congruence. }
  apply odict_eq.
  - rewrite dict_keys_apply_reassign; rewrite dict_keys_table_of; done.
  - rewrite dict_keys_apply_reassign; rewrite !dict_keys_table_of; done.
  - intros k. rewrite getitem_apply_reassign, !getitem_table_of by done.
    destruct (getitem k cs) as [c|] eqn:Hc.
    + assert (is_Some (getitem k cs')) as [c' Hc'].
      { apply elem_of_dict_keys. rewrite Hkeys. apply elem_of_dict_keys.
        by eexists. }
      rewrite Hc'. simpl.
      destruct (Hthese k c c' Hc Hc') as [->|[-> ->]]; done.
    + assert (k ∉ dict_keys cs) as Hout by (by apply getitem_None).
      rewrite (Hother k Hout). simpl. symmetry.
      assert (getitem k cs' = None) as ->; [|done].
      apply getitem_None. by rewrite Hkeys.
Qed.

Lemma prepare_ok_all swap L tq : prepare_ok swap L tq.
Proof.
  induction tq as [q c cs IH] using obj_tree_nested_ind.
  intros tf h old fuel Hq Htf Hnd Hndf Hsep Huq Hutf Hdepth Hold.
  destruct fuel as [|fuel]; [pose proof (depth_pos (ObjTree q c cs)); lia|].
  apply depth_node_le in Hdepth.
  pose proof (named_children_holds h _ Htf Hndf) as Hfch.
  apply holds_node in Hq as [Hqo Hcs].
  rewrite addrs_node in Hnd. apply NoDup_cons in Hnd as [Hqout Hndcs].
  apply unique_names_node in Huq as [Hnames Hucs].
  assert (q ∉ addrs tf) as Hqtf
    by (apply Hsep; rewrite addrs_node; by left).
  assert (∀ a, a ∈ child_addrs cs → a ∉ addrs tf) as Hsepcs
    by (intros a Ha; apply Hsep; rewrite addrs_node; by right).
  assert (q ∈ dom h) as Hqdom by (apply elem_of_dom; by eexists).
  assert (Forall (λ nc, getitem nc.1 (table_of cs) = Some (Some (root nc.2)))
            cs) as Hent.
  { apply Forall_forall. intros [nm t] Hin. simpl.
    by rewrite getitem_table_of, (getitem_NoDup nm t cs). }
  destruct (stubs_loop_ok swap L fuel tf q c (table_of cs) cs IH Hutf Hndf
              h [] [] old Hqo Hent Hqout) as
      (h1 & r1 & memo1 & cs' & Hrun & Hcs' & Hst & Hframe & Hfoot & Hr1
       & Hother & Hthese); [by intros a ?%elem_of_nil | done..
                           | apply NoDup_nil_2 |].
  assert (h1 !! q = Some (ModuleObj c (table_of cs))) as Hq1
    by (by rewrite Hframe).
  pose proof (child_stubbed_keys _ _ _ _ _ _ Hst) as Hkeys.
  assert (apply_reassign r1 (table_of cs) = table_of cs') as Htable.
  { apply reassigned_table; [done..| |].
    - intros nm Hout. by rewrite Hother.
    - intros nm c0 c0' Hc Hc'. destruct (Hthese nm c0 c0' Hc Hc'); auto. }
  assert (∀ a, a ∈ child_addrs cs' → a ≠ q) as Hnotq.
  { intros a Ha ->. destruct (Hfoot q Ha) as [?|[?|?]]; done. }
  exists (<[q := ModuleObj c (table_of cs')]> h1), (ObjTree q c cs').
  split; [|split; [|split; [|split]]].
  - rewrite prepare_unfold, Hfch. cbn [root]. rewrite Hqo.
    cbn [mbind option_bind obj_modules].
    rewrite children_dict_NoDup.
    2:{ rewrite dict_keys_fmap. destruct tf.
        by apply unique_names_node in Hutf as [? _]. }
    rewrite dict_keys_table_of.
    unfold loop_step, odict in Hrun |- *. rewrite Hrun.
    cbn [mbind option_bind fst snd].
    rewrite (set_modules_run q c _ _ _ Hq1).
    by rewrite Htable.
  - apply holds_node. split; [apply lookup_insert_eq|].
    rewrite Forall_forall in Hcs'. apply Forall_forall. intros [nm t] Hin.
    apply (holds_agree h1); [by apply (Hcs' (nm, t))|].
    intros a Ha. apply lookup_insert_ne. intros <-.
    apply (Hnotq q); [|done]. apply elem_of_child_addrs. by exists nm, t.
  - by apply stubbed_node.
  - intros a Ha Hout. rewrite addrs_node, not_elem_of_cons in Hout.
    destruct Hout as [Hne Hout]. rewrite lookup_insert_ne by done.
    by apply Hframe.
  - intros a. rewrite !addrs_node, !elem_of_cons.
    intros [->|Ha]; [by left; left|].
    destruct (Hfoot a Ha) as [?|[?|?]]; auto.
Qed.

(** ** Stub substitution and its frame *)

Section StubTheorems.
Context (module_swap_list : list py_class) (L : logger_class).
Context (tf tq : obj_tree) (h : store) (fuel : nat).
Context (Hq : holds h tq) (Hf : holds h tf).
Context (Htree : NoDup (addrs tq)) (Hftree : NoDup (addrs tf)).
Context (Hsep : ∀ a, a ∈ addrs tq → a ∉ addrs tf).
Context (Huq : unique_names tq) (Huf : unique_names tf).
Context (Hfuel : (depth tq ≤ fuel)%nat).

Lemma prepare_on_trees :
  ∃ h' tq',
    prepare_model_with_stubs fuel (root tf) (root tq) module_swap_list L h
      = Some h'
    ∧ holds h' tq'
    ∧ stubbed (dom h) module_swap_list L tf tq tq'
    ∧ (∀ a, a ∈ dom h → a ∉ addrs tq → h' !! a = h !! a).
Proof.
  destruct (prepare_ok_all module_swap_list L tq tf h (dom h) fuel)
    as (h' & tq' & Hrun & Hh' & Hst & Hframe & _); [done..|].
  by exists h', tq'.
Qed.

Lemma float_tree_untouched (h' : store) :
  (∀ a, a ∈ dom h → a ∉ addrs tq → h' !! a = h !! a) →
  ∀ a, a ∈ addrs tf → h' !! a = h !! a.
Proof.
  intros Hframe a Ha. apply Hframe; [exact (holds_dom h tf a Hf Ha)|].
  intros Ha'. by apply (Hsep a).
Qed.

End StubTheorems.

(** C3.  Let the quantized module and the float module be the roots of
    two trees of objects, in each of which no object occurs twice and
    sibling names are distinct, with no object in common, and let the fuel
    cover the depth of the quantized tree.  Then
    [prepare_model_with_stubs] returns, and the quantized tree it leaves
    in the store is [stubbed] from the two trees: a child whose name is
    also a float child's and whose float counterpart's type is in the swap
    list has become a new Shadow object over exactly the original
    quantized child and the original float child, whose trees are in the
    store as they were; a child whose float counterpart has another type
    is itself stubbed against that counterpart; a child without float
    counterpart is the child it was. *)
Theorem stub_substitution (module_swap_list : list py_class)
    (L : logger_class) (tf tq : obj_tree) (h : store) (fuel : nat) :
  holds h tq → holds h tf →
  NoDup (addrs tq) → NoDup (addrs tf) →
  (∀ a, a ∈ addrs tq → a ∉ addrs tf) →
  unique_names tq → unique_names tf →
  (depth tq ≤ fuel)%nat →
  ∃ h' tq',
    prepare_model_with_stubs fuel (root tf) (root tq) module_swap_list L h
      = Some h'
    ∧ holds h' tq' ∧ holds h' tf
    ∧ stubbed (dom h) module_swap_list L tf tq tq'.
Proof.
  intros Hq Hf Htree Hftree Hsep Huq Huf Hfuel.
  destruct (prepare_on_trees module_swap_list L tf tq h fuel)
    as (h' & tq' & Hrun & Hh' & Hst & Hframe); [done..|].
  exists h', tq'. split; [done|]. split; [done|]. split; [|done].
  apply (holds_agree h); [done|].
  by apply (float_tree_untouched tf tq h).
Qed.

(** C10.  Under the same hypotheses the call returns a store in which
    every object of the float tree is exactly what it was -- the float
    module and all its descendants keep their children -- and so is every
    other object outside the quantized tree; the objects of the quantized
    tree keep their class and the names of their child table, only entries
    of these tables being reassigned. *)
Theorem float_module_unchanged (module_swap_list : list py_class)
    (L : logger_class) (tf tq : obj_tree) (h : store) (fuel : nat) :
  holds h tq → holds h tf →
  NoDup (addrs tq) → NoDup (addrs tf) →
  (∀ a, a ∈ addrs tq → a ∉ addrs tf) →
  unique_names tq → unique_names tf →
  (depth tq ≤ fuel)%nat →
  ∃ h',
    prepare_model_with_stubs fuel (root tf) (root tq) module_swap_list L h
      = Some h'
    ∧ (∀ a, a ∈ addrs tf → h' !! a = h !! a)
    ∧ (∀ a o, h !! a = Some o →
         ∃ o', h' !! a = Some o'
               ∧ obj_class o' = obj_class o
               ∧ dict_keys (obj_modules o') = dict_keys (obj_modules o)
               ∧ (a ∉ addrs tq → o' = o)).
Proof.
  intros Hq Hf Htree Hftree Hsep Huq Huf Hfuel.
  destruct (prepare_on_trees module_swap_list L tf tq h fuel)
    as (h' & tq' & Hrun & Hh' & Hst & Hframe); [done..|].
  exists h'. split; [done|]. split.
  - by apply (float_tree_untouched tf tq h).
  - intros a o Ho.
    destruct (prepare_preserved _ _ _ _ _ _ _ Hrun a o Ho)
      as (o' & Ho' & Hc & Hk).
    exists o'. repeat split; try done.
    intros Hout. rewrite Hframe in Ho'; [congruence| |done].
    apply elem_of_dom. by eexists.
Qed.

Transparent new_Shadow.

(** ** The walker on samples *)

Lemma sample_trees_held :
  holds sample_store sample_quantized_tree
  ∧ holds sample_store sample_float_tree.
Proof. split; simpl; repeat split; reflexivity. Defined.

Lemma sample_trees_separate :
  NoDup (addrs sample_quantized_tree)
  ∧ NoDup (addrs sample_float_tree)
  ∧ (∀ a, a ∈ addrs sample_quantized_tree → a ∉ addrs sample_float_tree).
Proof.
  split; [by_computation|]. split; [by_computation|].
  apply Forall_forall. by_computation.
Defined.

Lemma sample_trees_named :
  unique_names sample_quantized_tree ∧ unique_names sample_float_tree.
Proof. split; simpl; repeat split; by_computation. Defined.

Lemma stub_substitution_witness :
  ∃ h' tq',
    prepare_model_with_stubs 3 1%positive 11%positive sample_swap_list
      ShadowLogger sample_store = Some h'
    ∧ holds h' tq' ∧ holds h' sample_float_tree
    ∧ stubbed (dom sample_store) sample_swap_list ShadowLogger
        sample_float_tree sample_quantized_tree tq'.
Proof.
  destruct sample_trees_held as [Hq Hf].
  destruct sample_trees_separate as (Htree & Hftree & Hsep).
  destruct sample_trees_named as [Huq Huf].
  apply (stub_substitution sample_swap_list ShadowLogger sample_float_tree
           sample_quantized_tree sample_store 3 Hq Hf Htree Hftree Hsep Huq
           Huf).
  simpl. lia.
Defined.

Lemma float_module_unchanged_witness :
  ∃ h',
    prepare_model_with_stubs 3 1%positive 11%positive sample_swap_list
      ShadowLogger sample_store = Some h'
    ∧ h' !! 3%positive = sample_store !! 3%positive.
Proof.
  destruct sample_trees_held as [Hq Hf].
  destruct sample_trees_separate as (Htree & Hftree & Hsep).
  destruct sample_trees_named as [Huq Huf].
  destruct (float_module_unchanged sample_swap_list ShadowLogger
              sample_float_tree sample_quantized_tree sample_store 3
              Hq Hf Htree Hftree Hsep Huq Huf) as (h' & Hrun & Hfloat & _).
  { simpl. lia. }
  exists h'. split; [exact Hrun|]. apply Hfloat. by_computation.
Defined.

(** The substitution computed on the sample: [conv] and [sub.fc] are
    wrapped, [quant] stays. *)
Lemma stub_substitution_sample :
  ∃ h',
    prepare_model_with_stubs 3 1%positive 11%positive sample_swap_list
      ShadowLogger sample_store = Some h'
    ∧ h' !! 11%positive
      = Some (ModuleObj (cls_module "Net")
                [("quant", Some 15%positive); ("conv", Some 16%positive);
                 ("sub", Some 13%positive)])
    ∧ h' !! 16%positive
      = Some (ModuleObj cls_Shadow
                [("orig_module", Some 12%positive);
                 ("shadow_module", Some 2%positive);
                 ("dequant", Some 17%positive); ("logger", Some 18%positive)])
    ∧ h' !! 13%positive
      = Some (ModuleObj (cls_module "Sequential") [("fc", Some 19%positive)])
    ∧ h' !! 19%positive
      = Some (ModuleObj cls_Shadow
                [("orig_module", Some 14%positive);
                 ("shadow_module", Some 4%positive);
                 ("dequant", Some 20%positive); ("logger", Some 21%positive)]).
Proof. eexists. split; [vm_compute; reflexivity|]. repeat split. Qed.

(** The quantized module has one object under the names [a] and [b], and
    the float module has children of both names, of a type in the swap
    list.  [named_children()] yields the object once, under [a]: the entry
    [a] becomes a Shadow wrapper, the entry [b] still holds the bare
    quantized object. *)
Lemma stub_substitution_claim_fails :
  ∃ h',
    named_children twice_registered_store 1%positive
      = Some [("a", 2%positive); ("b", 3%positive)]
    ∧ type_of twice_registered_store 3%positive = Some (cls_module "Linear")
    ∧ named_children twice_registered_store 11%positive
      = Some [("a", 12%positive)]
    ∧ prepare_model_with_stubs 2 1%positive 11%positive [cls_module "Linear"]
        ShadowLogger twice_registered_store = Some h'
    ∧ h' !! 11%positive
      = Some (ModuleObj (cls_module "Net")
                [("a", Some 13%positive); ("b", Some 12%positive)])
    ∧ type_of h' 13%positive = Some cls_Shadow
    ∧ type_of h' 12%positive = Some (cls_module "QuantizedLinear").
Proof.
  eexists. split; [reflexivity|]. split; [reflexivity|].
  split; [reflexivity|]. split; [vm_compute; reflexivity|]. repeat split.
Qed.

(** The float module and the quantized module have the same container
    object as child [sub]: the walker recurses into the container as
    quantized module and reassigns its entry [fc], so that a descendant
    of the float module has another child than before. *)
Lemma float_module_claim_fails :
  ∃ h',
    named_children shared_container_store 1%positive
      = Some [("sub", 3%positive)]
    ∧ shared_container_store !! 3%positive
      = Some (ModuleObj (cls_module "Sequential") [("fc", Some 4%positive)])
    ∧ prepare_model_with_stubs 3 1%positive 11%positive [cls_module "Linear"]
        ShadowLogger shared_container_store = Some h'
    ∧ h' !! 3%positive
      = Some (ModuleObj (cls_module "Sequential") [("fc", Some 12%positive)])
    ∧ type_of h' 12%positive = Some cls_Shadow.
Proof.
  eexists. split; [reflexivity|]. split; [reflexivity|].
  split; [vm_compute; reflexivity|]. repeat split.
Qed.

(* ================================================================= *)
(** * Further properties *)

(** ** The name matcher on particular names *)

Lemma slice_to_neg_twice {A} (l : list A) :
  slice_to_neg 2 l = slice_to_neg 1 (slice_to_neg 1 l).
Proof.
  unfold slice_to_neg. rewrite length_take, take_take. f_equal. lia.
Qed.

Lemma find_match_loop_fmap (f : string → string) ms l :
  (∀ c, c ∈ l →
     slice_to_neg 1 (split_dot (f c)) = slice_to_neg 1 (split_dot c)) →
  _find_match_loop ms (f <$> l) = f <$> _find_match_loop ms l.
Proof.
  induction l as [|c l IH]; intros Hf; [done|].
  cbn [fmap list_fmap _find_match_loop].
  rewrite !slice_to_neg_twice, (Hf c) by left.
  repeat case_decide; try done.
  apply IH. intros c' Hc'. apply Hf. by right.
Qed.

(** X1.  The matcher never looks at the last segment of a candidate: when
    the candidates are renamed by a function that keeps all segments but
    the last, the result is renamed in the same way.  A target
    ["fc.weight"] is thus matched with a candidate ["fc.bias"] that comes
    first. *)
Theorem find_match_renaming (f : string → string) (str_list : list string)
    (key_str postfix : string) :
  (∀ c, c ∈ str_list →
     slice_to_neg 1 (split_dot (f c)) = slice_to_neg 1 (split_dot c)) →
  _find_match (f <$> str_list) key_str postfix
  = f <$> _find_match str_list key_str postfix.
Proof.
  intros Hf. unfold _find_match. case_decide; [|done].
  by apply find_match_loop_fmap.
Qed.

Lemma find_match_renaming_witness :
  _find_match ["fc.bias"; "conv.weight"] "fc.weight" "weight" = Some "fc.bias".
Proof.
  change (_find_match
            ((λ c, if decide (c = "fc.weight") then "fc.bias" else c)
               <$> ["fc.weight"; "conv.weight"]) "fc.weight" "weight"
          = (λ c, if decide (c = "fc.weight") then "fc.bias" else c)
              <$> _find_match ["fc.weight"; "conv.weight"] "fc.weight" "weight").
  apply find_match_renaming.
  intros c Hc.
  apply elem_of_cons in Hc as [-> | Hc]; [reflexivity|].
  apply elem_of_cons in Hc as [-> | Hc]; [reflexivity|]. by apply elem_of_nil in Hc.
Defined.

(** X2.  A target that is the suffix alone (a parameter of the top-level
    module) has the empty stem, and so has every candidate of at most two
    segments once two segments are dropped: the first candidate is
    returned when it has at most two segments, whatever its name. *)
Theorem find_match_bare_target (s2 : string) (rest : list string)
    (postfix : string) :
  split_dot postfix = [postfix] → (length (split_dot s2) ≤ 2)%nat →
  _find_match (s2 :: rest) postfix postfix = Some s2.
Proof.
  intros Hp Hlen. unfold _find_match. rewrite Hp.
  rewrite decide_True by done. cbn [_find_match_loop].
  replace (slice_to_neg 2 (split_dot s2)) with (@nil string).
  - change (join_empty (slice_to_neg 1 [postfix])) with "".
    change (join_empty []) with "".
    by repeat case_decide.
  - unfold slice_to_neg. by replace (length (split_dot s2) - 2)%nat with 0%nat by lia.
Qed.

Lemma find_match_bare_target_witness :
  _find_match ["fc.bias"; "weight"] "weight" "weight" = Some "fc.bias".
Proof.
  apply (find_match_bare_target "fc.bias" ["weight"] "weight").
  - reflexivity.
  - vm_compute. lia.
Defined.

(** ** The weight comparator on particular stores *)

Lemma find_match_same_name l key postfix :
  key ∈ l → last_item (split_dot key) = Some postfix →
  is_Some (_find_match l key postfix).
Proof.
  intros Hin Hlast. unfold _find_match. rewrite decide_True by done.
  destruct (_find_match_loop _ l) as [m|] eqn:E; [by eexists|].
  apply find_match_loop_None in E.
  rewrite Forall_forall in E. destruct (E key Hin). by left.
Qed.

Lemma find_match_qualifies l key postfix m :
  _find_match l key postfix = Some m → m ∈ l ∧ qualifies key m.
Proof.
  intros Hm. split; [by eapply find_match_elem_of|].
  unfold _find_match in Hm. case_decide; [|done].
  apply find_match_loop_Some in Hm as (? & ? & _ & Hq & _). exact Hq.
Qed.

Section WeightStores.
Context {Tensor : Type}.
Implicit Types (float_dict quantized_dict : odict Tensor).

(** X3.  A name whose last segment is ["weight"] and that is a key of
    both stores has an entry in the result.  Its quantized side is the
    value stored under the name; its float side is the value of the float
    name the matcher returns, which is the name itself when no other float
    name qualifies. *)
Theorem compare_weights_same_name float_dict quantized_dict key fv qv :
  getitem key float_dict = Some fv →
  getitem key quantized_dict = Some qv →
  last_item (split_dot key) = Some "weight" →
  ∃ weight_dict match_key fv',
    compare_weights float_dict quantized_dict = Some weight_dict
    ∧ _find_match (dict_keys float_dict) key "weight" = Some match_key
    ∧ getitem match_key float_dict = Some fv'
    ∧ getitem key weight_dict = Some [("float", fv'); ("quantized", qv)]
    ∧ ((∀ c, c ∈ dict_keys float_dict → qualifies key c → c = key) →
       match_key = key ∧ fv' = fv).
Proof.
  intros Hf Hq Hlast.
  assert (key ∈ dict_keys float_dict) as Hkf
    by (apply elem_of_dict_keys; by eexists).
  assert (key ∈ dict_keys quantized_dict) as Hkq
    by (apply elem_of_dict_keys; by eexists).
  destruct (find_match_same_name _ _ _ Hkf Hlast) as [m Hm].
  destruct (compare_weights_loop float_dict quantized_dict) as (wd & Hrun & Hget).
  specialize (Hget key). rewrite decide_True in Hget by (by rewrite Hm).
  unfold weight_entry in Hget. rewrite Hm, Hq in Hget. simpl in Hget.
  destruct (find_match_qualifies _ _ _ _ Hm) as [Hin Hqual].
  apply elem_of_dict_keys in Hin as [fv' Hfv']. rewrite Hfv' in Hget.
  exists wd, m, fv'. split; [done|]. split; [done|]. split; [done|].
  split; [done|]. intros Huniq.
  assert (m = key) as ->
    by (apply Huniq; [apply elem_of_dict_keys; by eexists | done]).
  split; [done | congruence].
Qed.

(** The loop of the comparators appends the selected keys in order. *)
Lemma for_each_setitem_keys {V} (selected : string → Prop)
    `{∀ k, Decision (selected k)} (entry : string → option V)
    (keys : list string) (d d' : odict V) :
  NoDup keys → (∀ k, k ∈ keys → k ∉ dict_keys d) →
  for_each (λ d k, if decide (selected k)
                   then e ← entry k; Some (setitem k e d)
                   else Some d) keys d = Some d' →
  dict_keys d' = dict_keys d ++ filter selected keys.
Proof.
  revert d. induction keys as [|k keys IH]; intros d Hnd Hfresh Hrun.
  - simpl in Hrun. injection Hrun as <-. by rewrite filter_nil, app_nil_r.
  - apply NoDup_cons in Hnd as [Hk Hnd]. cbn [for_each] in Hrun.
    rewrite filter_cons. case_decide as Hsel.
    + destruct (entry k) as [e|]; simpl in Hrun; [|done].
      apply IH in Hrun; [|done|].
      * rewrite Hrun, setitem_fresh, dict_keys_app by (apply Hfresh; left).
        by rewrite <- app_assoc.
      * intros k' Hk' [-> | Hin]%dict_keys_setitem; [done|].
        by apply (Hfresh k'); [right|].
    + simpl in Hrun. apply IH in Hrun; [done..|].
      intros k' Hk'. apply Hfresh. by right.
Qed.

(** X4.  The result lists the matched quantized names in the order in
    which [quantized_dict] has them. *)
Theorem compare_weights_key_order float_dict quantized_dict weight_dict :
  NoDup (dict_keys quantized_dict) →
  compare_weights float_dict quantized_dict = Some weight_dict →
  dict_keys weight_dict
  = filter (λ key, is_Some (_find_match (dict_keys float_dict) key "weight"))
      (dict_keys quantized_dict).
Proof.
  intros Hnd Hrun. unfold compare_weights in Hrun.
  rewrite (for_each_ext _ _ _ _
             (compare_weights_body_entry float_dict quantized_dict)) in Hrun.
  apply (for_each_setitem_keys
           (λ key, is_Some (_find_match (dict_keys float_dict) key "weight")))
    in Hrun; [done..|].
  intros k _. apply not_elem_of_nil.
Qed.

(** X5.  With no float parameter, or no quantized parameter, the result
    is the empty dictionary, not an error. *)
Theorem compare_weights_empty float_dict quantized_dict :
  compare_weights [] quantized_dict = Some (@nil (string * odict Tensor))
  ∧ compare_weights float_dict [] = Some [].
Proof.
  split; [|done]. unfold compare_weights.
  assert (∀ ks (wd : odict (odict Tensor)),
            for_each (compare_weights_body [] quantized_dict) ks wd = Some wd)
    as Hloop; [|apply Hloop].
  assert (∀ (wd : odict (odict Tensor)) k,
            compare_weights_body [] quantized_dict wd k = Some wd) as Hbody.
  { intros wd k. unfold compare_weights_body, _find_match.
    by case_decide. }
  induction ks as [|k ks IH]; intros wd; [done|].
  cbn [for_each]. rewrite Hbody. apply IH.
Qed.

End WeightStores.

Lemma compare_weights_same_name_witness :
  ∃ weight_dict,
    compare_weights sample_float_store sample_quantized_store = Some weight_dict
    ∧ getitem "fc.weight" weight_dict = Some [("float", 1); ("quantized", 10)].
Proof.
  destruct (compare_weights_same_name sample_float_store sample_quantized_store
              "fc.weight" 1 10 eq_refl eq_refl eq_refl)
    as (wd & m & fv' & Hrun & Hm & Hfv & Hget & _).
  exists wd. split; [exact Hrun|].
  vm_compute in Hm. injection Hm as <-.
  vm_compute in Hfv. injection Hfv as <-. exact Hget.
Defined.

Lemma compare_weights_key_order_witness :
  compare_weights sample_float_store sample_quantized_store
    = Some sample_weight_dict
  ∧ dict_keys sample_weight_dict = ["fc.weight"; "conv.weight"].
Proof.
  split; [reflexivity|].
  refine (eq_trans
            (compare_weights_key_order sample_float_store
               sample_quantized_store sample_weight_dict _ eq_refl) _).
  - by_computation.
  - reflexivity.
Defined.
